(** * PapillonNDL: coherent elastic scattering and general evaporation

    Shallow embedding of
      - [include/PapillonNDL/st_coherent_elastic.hpp] (class STCoherentElastic)
      - [src/general_evaporation.cpp]                 (class GeneralEvaporation)

    Modelling conventions.
      - A C++ [double] is an exact rational ([Q]); rounding, infinities and
        NaN are outside the model.  Results that the source obtains from one
        arithmetic expression are compared with Leibniz equality against the
        same expression; derived quantities are compared with [==].  A
        statement that the rounding or the overflow of double arithmetic
        could disturb carries a margin ([rounding_margin]) or a hypothesis
        that keeps the values finite ([DBL_MAX]).
      - [size_t] and [uint32_t] values are [N] with the wrap-around of the
        source's arithmetic written out.
      - Unchecked accesses ([operator[]], [back()], dereferencing an iterator)
        that fall outside the vector are undefined in C++; the model makes
        them an explicit failure ([None]).
      - [std::function<double()> rng] is a generator with hidden state: a
        sequence of variates together with the position of the next draw. *)

From Stdlib Require Import QArith Qround Lqa.
From Stdlib Require Import ZArith NArith Lia.
From Stdlib Require Import List Bool.
Import ListNotations.

Local Open Scope Q_scope.

(** ** Comparisons on doubles *)

Definition Qltb (x y : Q) : bool :=
  match x ?= y with
  | Lt => true
  | _ => false
  end.

Definition Qgtb (x y : Q) : bool := Qltb y x.

(** ** The random variate source *)

Module Rng.

Record t : Type := mk { variates : nat -> Q; drawn : nat }.

(** One call [rng()]. *)
Definition draw (r : t) : Q * t :=
  (variates r (drawn r), mk (variates r) (S (drawn r))).

(** The generator after [k] further calls. *)
Definition advance (k : nat) (r : t) : t :=
  mk (variates r) (k + drawn r).

(** The variate that the [k]-th next call will return. *)
Definition peek (k : nat) (r : t) : Q := variates r (k + drawn r).

(** A scripted generator: yields the listed values, then [0]. *)
Definition scripted (l : list Q) : t := mk (fun k => nth k l 0) 0.

End Rng.

(** ** Sampling computations: generator state plus failure *)

Definition Sampler (A : Type) : Type := Rng.t -> option (A * Rng.t).

Definition ret {A} (a : A) : Sampler A := fun r => Some (a, r).

Definition bind {A B} (m : Sampler A) (f : A -> Sampler B) : Sampler B :=
  fun r =>
    match m r with
    | Some (a, r') => f a r'
    | None => None
    end.

Definition call_rng : Sampler Q := fun r => Some (Rng.draw r).

(** Lifting of an access that may be out of range. *)
Definition access {A} (o : option A) : Sampler A :=
  fun r =>
    match o with
    | Some a => Some (a, r)
    | None => None
    end.

Declare Scope sampler_scope.
Delimit Scope sampler_scope with sampler.
Notation "x <- m ;; k" := (bind m (fun x => k))
  (at level 61, m at next level, right associativity) : sampler_scope.

(** ** Vectors of doubles *)

(** [v[i]], unchecked in C++. *)
Fixpoint at_index {A} (v : list A) (i : N) : option A :=
  match v with
  | [] => None
  | x :: v' => if (i =? 0)%N then Some x else at_index v' (N.pred i)
  end.

(** [v.back()], undefined on an empty vector. *)
Definition back {A} (v : list A) : option A :=
  match v with
  | [] => None
  | x :: v' => Some (last v' x)
  end.

(** [std::lower_bound(v.begin(), v.end(), E)], as a distance from
    [v.begin()]: the position of the first element that is not less than
    [E], or [v.size()] when there is none.  This is the result the C++
    standard requires whenever the elements less than [E] precede all
    others, in particular on a sorted vector. *)
Fixpoint lower_bound (v : list Q) (E : Q) : N :=
  match v with
  | [] => 0%N
  | x :: v' => if Qltb x E then N.succ (lower_bound v' E) else 0%N
  end.

(** [it--] on an iterator given as a distance from [begin()]; undefined
    at [begin()] itself. *)
Definition decrement (it : N) : option N :=
  if (it =? 0)%N then None else Some (N.pred it).

(** Arithmetic on [size_t] (64 bits) and [uint32_t]. *)
Definition wrap64 (n : Z) : N := Z.to_N (n mod 2 ^ 64).
Definition wrap32 (n : Z) : N := Z.to_N (n mod 2 ^ 32).

Definition size_add (a b : N) : N := wrap64 (Z.of_N a + Z.of_N b).
Definition uint32_mul (a b : N) : N := wrap32 (Z.of_N a * Z.of_N b).

(** [a .+ b] is an addition in [size_t], [a .* b] a multiplication in
    [uint32_t]; every sum and product of an offset wraps as in the source. *)
Infix ".+" := size_add (at level 50, left associativity).
Infix ".*" := uint32_mul (at level 40, left associativity).

Definition size {A} (v : list A) : N := N.of_nat (length v).

(** [static_cast<size_t>(x)] for an integral double [x]; undefined when the
    value does not fit. *)
Definition to_size_t (z : Z) : option N :=
  if ((0 <=? z) && (z <? 2 ^ 64))%Z then Some (Z.to_N z) else None.

(** Truncation toward zero, the rounding of a conversion from [double] to
    an integer type. *)
Definition Qtruncate (x : Q) : Z := Z.quot (Qnum x) (Zpos (Qden x)).

(** [static_cast<uint32_t>(x)]: truncation; undefined when the truncated
    value does not fit. *)
Definition to_uint32 (x : Q) : option N :=
  let z := Qtruncate x in
  if ((0 <=? z) && (z <? 2 ^ 32))%Z then Some (Z.to_N z) else None.

(** ** STCoherentElastic *)

Module STCoherentElastic.

Record t : Type := mk {
  bragg_edges_ : list Q;
  structure_factor_sum_ : list Q
}.

(** Modelled from the spec: AngleEnergyPacket is declared in
    PapillonNDL/angle_energy.hpp, which is not part of the sources at hand;
    it holds the pair "(mu, E_out)" that [sample_angle_energy] returns. *)
Record AngleEnergyPacket : Type := packet {
  cosine_angle : Q;
  energy : Q
}.

(** [double xs(double E) const] *)
Definition xs (c : t) (E : Q) : option Q :=
  match bragg_edges_ c with
  | [] => Some 0
  | e0 :: rest =>
      let first := e0 in
      let final := last rest e0 in
      if Qgtb E first && Qltb E final then
        let Eit := lower_bound (bragg_edges_ c) E in
        let l := wrap64 (Z.of_N Eit - 1) in
        match at_index (structure_factor_sum_ c) l with
        | Some s => Some (s / E)
        | None => None
        end
      else if Qltb E first then
        Some 0
      else
        match back (structure_factor_sum_ c) with
        | Some s => Some (s / E)
        | None => None
        end
  end.

(** [AngleEnergyPacket sample_angle_energy(double E_in,
                                           std::function<double()>)] *)
Definition sample_angle_energy (c : t) (E_in : Q)
  : Sampler AngleEnergyPacket :=
  match bragg_edges_ c with
  | [] => ret (packet 1 0)
  | e0 :: rest =>
      let first := e0 in
      let final := last rest e0 in
      (Ei <-
         (if Qgtb E_in first && Qltb E_in final then
            let Eit := lower_bound (bragg_edges_ c) E_in in
            (Eit <- access (decrement Eit) ;;
             access (at_index (bragg_edges_ c) Eit))%sampler
          else if Qltb E_in first then
            ret 0
          else
            ret final) ;;
       let mu := 1 - (2 * Ei / E_in) in
       ret (packet mu E_in))%sampler
  end.

(** [std::optional<double> angle_pdf(double, double)] *)
Definition angle_pdf (c : t) (E_in mu : Q) : option Q := None.

(** [std::optional<double> pdf(double, double, double)] *)
Definition pdf (c : t) (E_in mu E_out : Q) : option Q := None.

End STCoherentElastic.

(** ** The flat data array of an ACE file *)

Module ACE.

(** Modelled from the spec: class ACE (PapillonNDL/ace.hpp) is not part of
    the sources at hand.  It is "a flat indexable numeric array" offering a
    "typed scalar read at an offset" and a "typed contiguous-range read at
    an offset and length". *)
Definition t : Type := list Q.

(** [ace.xss(i)] *)
Definition xss (a : t) (i : N) : option Q := at_index a i.

(** [ace.xss(i, n)]: the [n] values at offsets [i], [i+1], ... *)
Fixpoint xss_range (a : t) (i : N) (n : nat) : option (list Q) :=
  match n with
  | O => Some []
  | S n' =>
      match xss a i, xss_range a (N.succ i) n' with
      | Some x, Some xs => Some (x :: xs)
      | _, _ => None
      end
  end.

(** Element-wise conversion of a range read, [ace.xss<T>(i, n)]. *)
Fixpoint convert {T} (f : Q -> option T) (l : list Q) : option (list T) :=
  match l with
  | [] => Some []
  | x :: l' =>
      match f x, convert f l' with
      | Some y, Some ys => Some (y :: ys)
      | _, _ => None
      end
  end.

Definition xss_as {T} (f : Q -> option T) (a : t) (i : N) : option T :=
  match xss a i with
  | Some x => f x
  | None => None
  end.

Definition xss_range_as {T} (f : Q -> option T) (a : t) (i : N) (n : N)
  : option (list T) :=
  match xss_range a i (N.to_nat n) with
  | Some l => convert f l
  | None => None
  end.

End ACE.

(** ** Tabulated functions *)

(** Modelled from the spec: the interpolation rules of a table
    (PapillonNDL/interpolation.hpp is not part of the sources at hand):
    "linear-linear, linear-log, log-linear, log-log, and histogram". *)
Inductive Interpolation : Type :=
  | Histogram | LinLin | LinLog | LogLin | LogLog.

(** Modelled from the spec: Region1D and MultiRegion1D, the "single-scheme
    and multi-scheme piecewise interpolation over a segmented grid", are
    declared outside the sources at hand; a table is kept here as the data
    handed to its constructor. *)
Inductive Tabulated1D : Type :=
  | Region1D (x y : list Q) (interp : Interpolation)
  | MultiRegion1D (NBT : list N) (INT : list Interpolation) (x y : list Q).

(** ** GeneralEvaporation *)

Module GeneralEvaporation.

Record t : Type := mk {
  temperature_ : Tabulated1D;
  bin_bounds_ : list Q
}.

Declare Scope option_scope.
Notation "x <- m ;; k" :=
  (match m with Some x => k | None => None end)
  (at level 61, m at next level, right associativity, only parsing)
  : option_scope.
Delimit Scope option_scope with option.

(** The bin chosen from the first variate:
    [static_cast<size_t>(std::floor(bin_bounds_.size() * xi1))].  The
    product is exact here; a statement about its integer part that is to
    hold for every variate allows for its rounding ([selects_bin]). *)
Definition select_bin (bin_bounds : list Q) (xi1 : Q) : option N :=
  to_size_t (Qfloor (inject_Z (Z.of_N (size bin_bounds)) * xi1)).

Section WithTables.

(** Conversion of a stored number to an interpolation rule, performed by
    [ace.xss<Interpolation>]; declared outside the sources at hand. *)
Variable to_Interpolation : Q -> option Interpolation.

(** Evaluation of the temperature table at [E_in] (the call operator of
    Tabulated1D), implemented by Region1D and MultiRegion1D outside the
    sources at hand. *)
Variable evaluate : Tabulated1D -> Q -> Q.

(** [GeneralEvaporation::GeneralEvaporation(const ACE& ace, size_t i)] *)
Definition GeneralEvaporation (ace : ACE.t) (i : N) : option t :=
  (NR <- ACE.xss_as to_uint32 ace i ;;
   NE <- ACE.xss_as to_uint32 ace (i .+ 1 .+ 2 .* NR) ;;
   tables <-
     (if (NR =? 0)%N then
        Some ([NE], [LinLin])
      else
        NBT <- ACE.xss_range_as to_uint32 ace (i .+ 1) NR ;;
        INT <- ACE.xss_range_as to_Interpolation ace (i .+ 1 .+ NR) NR ;;
        Some (NBT, INT)) ;;
   let NBT := fst tables in
   let INT := snd tables in
   energy <- ACE.xss_range_as Some ace (i .+ 2 .+ 2 .* NR) NE ;;
   temperature <-
     ACE.xss_range_as Some ace (i .+ 2 .+ 2 .* NR .+ NE) NE ;;
   NX <- ACE.xss_as to_uint32 ace (i .+ 2 .+ 2 .* NR .+ 2 .* NE) ;;
   bin_bounds <-
     ACE.xss_range_as Some ace (i .+ 2 .+ 2 .* NR .+ 2 .* NE) NX ;;
   temperature_ <-
     (if (size NBT =? 1)%N then
        INT0 <- at_index INT 0 ;;
        Some (Region1D energy temperature INT0)
      else
        Some (MultiRegion1D NBT INT energy temperature)) ;;
   Some (mk temperature_ bin_bounds))%option.

(** [double GeneralEvaporation::sample_energy(double E_in,
                                              std::function<double()> rng)] *)
Definition sample_energy (g : t) (E_in : Q) : Sampler Q :=
  (let T := evaluate (temperature_ g) E_in in
   xi1 <- call_rng ;;
   bin <- access (select_bin (bin_bounds_ g) xi1) ;;
   xi2 <- call_rng ;;
   upper <- access (at_index (bin_bounds_ g) (bin .+ 1)) ;;
   lower <- access (at_index (bin_bounds_ g) bin) ;;
   let Chi := (upper - lower) * xi2 + lower in
   ret (Chi * T))%sampler.

End WithTables.

End GeneralEvaporation.

(** ** Tables used by the properties below *)

(** The vector is strictly increasing. *)
Fixpoint strictly_increasing (v : list Q) : bool :=
  match v with
  | [] => true
  | x :: v' =>
      match v' with
      | [] => true
      | y :: _ => Qltb x y && strictly_increasing v'
      end
  end.

(** No element of the vector is negative. *)
Definition non_negative (v : list Q) : bool :=
  forallb (fun x => negb (Qltb x 0)) v.

(** The table of the worked examples: edges 1, 2, 3 with structure factor
    sums 10, 20, 30. *)
Definition three_edges : STCoherentElastic.t :=
  STCoherentElastic.mk [1; 2; 3] [10; 20; 30].

Definition no_edges (sums : list Q) : STCoherentElastic.t :=
  STCoherentElastic.mk [] sums.

(** Outcome of a sampling call: it completes, leaves the generator as it
    found it, and returns cosine [mu] and energy [E_out]. *)
Definition returns_without_drawing
  (m : Sampler STCoherentElastic.AngleEnergyPacket) (r : Rng.t) (mu E_out : Q)
  : Prop :=
  exists p, m r = Some (p, r) /\
            STCoherentElastic.cosine_angle p == mu /\
            STCoherentElastic.energy p = E_out.

(** The search of the specification: "a search that returns the first edge
    strictly greater than E" ([std::upper_bound]), as a distance from
    [begin()]. *)
Fixpoint upper_bound (v : list Q) (E : Q) : N :=
  match v with
  | [] => 0%N
  | x :: v' => if Qltb E x then 0%N else N.succ (upper_bound v' E)
  end.

(** The cross section between the first and the last edge as the
    specification words it: [structure_factor_sum[l] / E] with [l] the index
    of the greatest edge less than or equal to [E]. *)
Definition xs_greatest_edge_le (c : STCoherentElastic.t) (E : Q) : option Q :=
  match decrement (upper_bound (STCoherentElastic.bragg_edges_ c) E) with
  | Some l =>
      match at_index (STCoherentElastic.structure_factor_sum_ c) l with
      | Some s => Some (s / E)
      | None => None
      end
  | None => None
  end.

(** The dimensionless factor of the evaporation spectrum: the point of the
    selected bin that the second variate interpolates. *)
Definition chi (bin_bounds : list Q) (xi1 xi2 : Q) : option Q :=
  match GeneralEvaporation.select_bin bin_bounds xi1 with
  | Some bin =>
      match at_index bin_bounds (bin .+ 1), at_index bin_bounds bin with
      | Some upper, Some lower => Some ((upper - lower) * xi2 + lower)
      | _, _ => None
      end
  | None => None
  end.

(** A record in the layout of the specification: NR = 0, NE = 2 with the
    energies 1, 2 and the temperatures 5, 6, then NX = 3 followed by the
    bin bounds 0, 1, 2. *)
Definition evaporation_record : ACE.t := [0; 2; 1; 2; 5; 6; 3; 0; 1; 2].

(** The evaporation spectrum of the worked example: bin bounds 0, 1, 2. *)
Definition three_bounds : GeneralEvaporation.t :=
  GeneralEvaporation.mk (Region1D [1; 2] [5; 6] LinLin) [0; 1; 2].

(** The halving search by which the standard libraries implement
    [std::lower_bound]: [first] and [len] delimit the part of the vector
    still to be searched, and each step probes its middle element. *)
Fixpoint bisect (fuel : nat) (v : list Q) (E : Q) (first len : N) : N :=
  match fuel with
  | O => first
  | S fuel' =>
      if (len =? 0)%N then first
      else
        let half := N.div2 len in
        let middle := (first + half)%N in
        match at_index v middle with
        | Some x =>
            if Qltb x E
            then bisect fuel' v E (N.succ middle) (len - half - 1)%N
            else bisect fuel' v E first half
        | None => first
        end
  end.

Definition lower_bound_bisect (v : list Q) (E : Q) : N :=
  bisect (length v) v E 0 (size v).

(** ** Double arithmetic in the statements *)

(** The largest finite double, [(2^53 - 1) * 2^971]. *)
Definition DBL_MAX : Q := inject_Z ((2 ^ 53 - 1) * 2 ^ 971).

(** Twice any element of the vector is still a finite double. *)
Definition doubling_is_finite (v : list Q) : bool :=
  forallb (fun x => Qle_bool (2 * x) DBL_MAX) v.

(** A bound, [2^-51], on the relative error that double arithmetic adds
    when it converts a size and multiplies it by a variate. *)
Definition rounding_margin : Q := 1 # 2251799813685248.

(** [bin] is the integer part of [n * xi1], the product being taken up to
    the rounding of double arithmetic. *)
Definition selects_bin (n : N) (xi1 : Q) (bin : N) : Prop :=
  inject_Z (Z.of_N bin)
  <= inject_Z (Z.of_N n) * xi1 * (1 + rounding_margin) /\
  inject_Z (Z.of_N n) * xi1 * (1 - rounding_margin)
  < inject_Z (Z.of_N bin) + 1.

(** The object that the constructor builds from [evaporation_record]. *)
Definition constructed_from_record : GeneralEvaporation.t :=
  GeneralEvaporation.mk (Region1D [1; 2] [5; 6] LinLin) [3; 0; 1].

(** A temperature function that takes the tabulated values 5 and 6 at the
    grid energies 1 and 2 of [evaporation_record]. *)
Definition tabulated_temperature (T : Tabulated1D) (E : Q) : Q :=
  if Qeq_bool E 1 then 5 else 6.

(** * Properties *)

(** ** Comparisons *)

Lemma Qltb_true (x y : Q) : Qltb x y = true <-> x < y.
Proof.
  unfold Qltb. rewrite Qlt_alt.
  destruct (x ?= y); split; congruence.
Qed.

Lemma Qltb_false (x y : Q) : Qltb x y = false <-> y <= x.
Proof.
  split; intros H.
  - apply Qnot_lt_le. intros Hlt. apply Qltb_true in Hlt. congruence.
  - destruct (Qltb x y) eqn:Hb; trivial.
    apply Qltb_true in Hb. exfalso. exact (Qlt_not_le _ _ Hb H).
Qed.

Lemma Qltb_spec (x y : Q) : reflect (x < y) (Qltb x y).
Proof.
  destruct (Qltb x y) eqn:Hb; constructor.
  - now apply Qltb_true.
  - apply Qltb_false in Hb. now apply Qle_not_lt.
Qed.

(** ** Vector accesses *)

Lemma at_index_cons_succ {A} (x : A) (v : list A) (i : N) :
  at_index (x :: v) (N.succ i) = at_index v i.
Proof.
  simpl. destruct (N.eqb_spec (N.succ i) 0) as [H | _].
  - lia.
  - now rewrite N.pred_succ.
Qed.

Lemma size_cons {A} (x : A) (v : list A) : size (x :: v) = N.succ (size v).
Proof. unfold size. simpl. lia. Qed.

Lemma at_index_in_range {A} (v : list A) (i : N) :
  (i < size v)%N -> exists a, at_index v i = Some a.
Proof.
  revert i. induction v as [| x v IH]; intros i Hi.
  - unfold size in Hi. simpl in Hi. lia.
  - simpl. destruct (N.eqb_spec i 0) as [_ | Hne].
    + now exists x.
    + apply IH. rewrite size_cons in Hi. lia.
Qed.

Lemma at_index_out_of_range {A} (v : list A) (i : N) :
  (size v <= i)%N -> at_index v i = None.
Proof.
  revert i. induction v as [| x v IH]; intros i Hi; simpl.
  - reflexivity.
  - rewrite size_cons in Hi.
    destruct (N.eqb_spec i 0) as [H0 | Hne]; [lia |].
    apply IH. lia.
Qed.

Lemma at_index_Some_in_range {A} (v : list A) (i : N) (a : A) :
  at_index v i = Some a -> (i < size v)%N.
Proof.
  intros H. destruct (N.lt_ge_cases i (size v)) as [Hlt | Hge]; trivial.
  rewrite (at_index_out_of_range v i Hge) in H. discriminate.
Qed.

Lemma at_index_In {A} (v : list A) (i : N) (a : A) :
  at_index v i = Some a -> In a v.
Proof.
  revert i. induction v as [| x v IH]; intros i; simpl.
  - discriminate.
  - destruct (i =? 0)%N.
    + intros [= ->]. now left.
    + intros H. right. eauto.
Qed.

Lemma last_cons {A} (x : A) (v : list A) (d : A) :
  last (x :: v) d = last v x.
Proof.
  revert x d. induction v as [| y v IH]; intros x d.
  - reflexivity.
  - change (last (x :: y :: v) d) with (last (y :: v) d).
    now rewrite !IH.
Qed.

Lemma last_In {A} (v : list A) (d : A) : In (last v d) (d :: v).
Proof.
  revert d. induction v as [| x v IH]; intros d.
  - now left.
  - rewrite last_cons. right. apply IH.
Qed.

(** ** Binary search results *)

Lemma lower_bound_le_size (v : list Q) (E : Q) :
  (lower_bound v E <= size v)%N.
Proof.
  induction v as [| x v IH]; simpl.
  - unfold size. simpl. lia.
  - rewrite size_cons. destruct (Qltb x E); lia.
Qed.

(** Every element in front of the returned position is less than [E]. *)
Lemma lower_bound_below (v : list Q) (E : Q) (j : N) (x : Q) :
  (j < lower_bound v E)%N -> at_index v j = Some x -> x < E.
Proof.
  revert j. induction v as [| y v IH]; intros j Hj Hx; simpl in *.
  - lia.
  - destruct (Qltb_spec y E) as [Hy | Hy]; [| lia].
    destruct (N.eqb_spec j 0) as [-> | Hne].
    + now injection Hx as <-.
    + apply (IH (N.pred j)); trivial. lia.
Qed.

(** The element at the returned position is not less than [E]. *)
Lemma lower_bound_stop (v : list Q) (E : Q) (x : Q) :
  at_index v (lower_bound v E) = Some x -> E <= x.
Proof.
  induction v as [| y v IH]; simpl.
  - discriminate.
  - destruct (Qltb_spec y E) as [Hy | Hy].
    + destruct (N.eqb_spec (N.succ (lower_bound v E)) 0) as [H0 | _]; [lia |].
      rewrite N.pred_succ. exact IH.
    + simpl. intros [= <-]. now apply Qnot_lt_le.
Qed.

Lemma lower_bound_lt_size (v : list Q) (E : Q) (x : Q) :
  In x v -> E <= x -> (lower_bound v E < size v)%N.
Proof.
  induction v as [| y v IH]; intros Hin Hx.
  - destruct Hin.
  - simpl. rewrite size_cons.
    destruct (Qltb_spec y E) as [Hy | Hy]; [| lia].
    destruct Hin as [-> | Hin].
    + exfalso. exact (Qlt_not_le _ _ Hy Hx).
    + specialize (IH Hin Hx). lia.
Qed.

(** Inside the guard [E > front && E < back] the search lands strictly
    between [begin()] and [end()]. *)
Lemma lower_bound_interior (e0 : Q) (rest : list Q) (E : Q) :
  Qgtb E e0 && Qltb E (last rest e0) = true ->
  (1 <= lower_bound (e0 :: rest) E < size (e0 :: rest))%N.
Proof.
  intros H. apply andb_prop in H as [Hlo Hhi].
  unfold Qgtb in Hlo. apply Qltb_true in Hhi.
  split.
  - simpl. rewrite Hlo. lia.
  - apply (lower_bound_lt_size _ _ (last rest e0)).
    + apply last_In.
    + now apply Qlt_le_weak.
Qed.

(** On a vector without the value [E] the two searches coincide. *)
Lemma upper_bound_lower_bound (v : list Q) (E : Q) :
  (forall x, In x v -> ~ x == E) -> upper_bound v E = lower_bound v E.
Proof.
  induction v as [| y v IH]; intros Hne; simpl.
  - reflexivity.
  - assert (Hy : ~ y == E) by (apply Hne; now left).
    rewrite IH by (intros x Hx; apply Hne; now right).
    destruct (Qltb_spec y E) as [Hlt | Hge], (Qltb_spec E y) as [Hgt | Hle];
      trivial.
    + exfalso. exact (Qlt_not_le _ _ Hlt (Qlt_le_weak _ _ Hgt)).
    + exfalso. apply Hy. apply Qle_antisym; now apply Qnot_lt_le.
Qed.

Lemma strictly_increasing_tail (x : Q) (v : list Q) :
  strictly_increasing (x :: v) = true -> strictly_increasing v = true.
Proof.
  destruct v as [| y v]; trivial.
  change (Qltb x y && strictly_increasing (y :: v) = true ->
          strictly_increasing (y :: v) = true).
  intros H. now apply andb_prop in H.
Qed.

Lemma strictly_increasing_head (x : Q) (v : list Q) (y : Q) :
  strictly_increasing (x :: v) = true -> In y v -> x < y.
Proof.
  revert x. induction v as [| z v IH]; intros x Hs Hin.
  - destruct Hin.
  - change (Qltb x z && strictly_increasing (z :: v) = true) in Hs.
    apply andb_prop in Hs as [Hxz Hs]. apply Qltb_true in Hxz.
    destruct Hin as [-> | Hin]; trivial.
    apply Qlt_trans with z; trivial. now apply IH.
Qed.

(** On a strictly increasing vector the position returned by the search
    counts the elements that are less than [E]. *)
Lemma lower_bound_sorted (v : list Q) (E : Q) (j : N) (x : Q) :
  strictly_increasing v = true ->
  at_index v j = Some x -> x < E -> (j < lower_bound v E)%N.
Proof.
  revert j. induction v as [| y v IH]; intros j Hs Hj Hx.
  - discriminate.
  - simpl in Hj |- *. destruct (N.eqb_spec j 0) as [-> | Hne].
    + injection Hj as ->. apply Qltb_true in Hx. rewrite Hx. lia.
    + assert (Hy : y < E).
      { apply Qlt_trans with x; trivial.
        apply (strictly_increasing_head y v); trivial.
        now apply at_index_In in Hj. }
      apply Qltb_true in Hy. rewrite Hy.
      specialize (IH (N.pred j) (strictly_increasing_tail _ _ Hs) Hj Hx). lia.
Qed.

Lemma strictly_increasing_adjacent (v : list Q) (l : N) (a b : Q) :
  strictly_increasing v = true ->
  at_index v l = Some a -> at_index v (N.succ l) = Some b -> a < b.
Proof.
  revert l. induction v as [| x v IH]; intros l Hs Ha Hb.
  - discriminate.
  - rewrite at_index_cons_succ in Hb.
    simpl in Ha. destruct (N.eqb_spec l 0) as [-> | Hne].
    + injection Ha as <-. apply (strictly_increasing_head x v); trivial.
      now apply at_index_In in Hb.
    + apply (IH (N.pred l)); trivial.
      * now apply strictly_increasing_tail in Hs.
      * now replace (N.succ (N.pred l)) with l by lia.
Qed.

Lemma strictly_increasing_at_index (v : list Q) (j m : N) (a b : Q) :
  strictly_increasing v = true ->
  (j < m)%N -> at_index v j = Some a -> at_index v m = Some b -> a < b.
Proof.
  revert j m. induction v as [| x v IH]; intros j m Hs Hjm Ha Hb.
  - discriminate.
  - simpl in Ha, Hb.
    destruct (N.eqb_spec m 0) as [-> | Hm]; [lia |].
    destruct (N.eqb_spec j 0) as [-> | Hj].
    + injection Ha as <-. apply (strictly_increasing_head x v); trivial.
      now apply at_index_In in Hb.
    + apply (IH (N.pred j) (N.pred m)); trivial.
      * now apply strictly_increasing_tail in Hs.
      * lia.
Qed.

(** What the halving search maintains on a strictly increasing vector:
    everything in front of the remaining part is less than [E], everything
    behind it is not. *)
Lemma bisect_partition (fuel : nat) (v : list Q) (E : Q) (first len : N) :
  strictly_increasing v = true ->
  (N.to_nat len <= fuel)%nat ->
  (first + len <= size v)%N ->
  (forall j x, (j < first)%N -> at_index v j = Some x -> x < E) ->
  (forall j x, (first + len <= j)%N -> at_index v j = Some x -> E <= x) ->
  (bisect fuel v E first len <= size v)%N /\
  (forall j x, (j < bisect fuel v E first len)%N ->
               at_index v j = Some x -> x < E) /\
  (forall j x, (bisect fuel v E first len <= j)%N ->
               at_index v j = Some x -> E <= x).
Proof.
  intros Hs. revert first len.
  induction fuel as [| fuel IH]; intros first len Hfuel Hsize Hlo Hhi.
  - assert (len = 0%N) by lia. subst len. simpl.
    rewrite N.add_0_r in Hhi, Hsize. auto.
  - simpl. destruct (N.eqb_spec len 0) as [-> | Hlen].
    + rewrite N.add_0_r in Hhi, Hsize. auto.
    + assert (Hhalf : (N.div2 len < len)%N).
      { rewrite N.div2_div. apply N.div_lt; lia. }
      set (half := N.div2 len) in *. clearbody half.
      destruct (at_index_in_range v (first + half)) as [x Hx]; [lia |].
      rewrite Hx. destruct (Qltb_spec x E) as [Hlt | Hge].
      * apply IH; try lia.
        -- intros j y Hj Hy.
           destruct (N.eq_dec j (first + half)) as [-> | Hne].
           ++ rewrite Hx in Hy. now injection Hy as <-.
           ++ apply Qlt_trans with x; trivial.
              apply (strictly_increasing_at_index v j (first + half));
                trivial. lia.
        -- intros j y Hj Hy. apply (Hhi j); trivial. lia.
      * apply IH; try lia.
        -- exact Hlo.
        -- intros j y Hj Hy. apply Qnot_lt_le in Hge.
           destruct (N.eq_dec j (first + half)) as [-> | Hne].
           ++ rewrite Hx in Hy. now injection Hy as <-.
           ++ apply Qle_trans with x; trivial. apply Qlt_le_weak.
              apply (strictly_increasing_at_index v (first + half) j);
                trivial. lia.
Qed.

(** On a strictly increasing vector the halving search returns the
    position of the first element that is not less than [E]. *)
Lemma lower_bound_bisect_correct (v : list Q) (E : Q) :
  strictly_increasing v = true ->
  lower_bound_bisect v E = lower_bound v E.
Proof.
  intros Hs. unfold lower_bound_bisect.
  destruct (bisect_partition (length v) v E 0 (size v) Hs)
    as (Hr & Hbelow & Habove).
  - unfold size. lia.
  - lia.
  - intros j x Hj. lia.
  - intros j x Hj Hx. apply at_index_Some_in_range in Hx. lia.
  - set (r := bisect (length v) v E 0 (size v)) in *.
    pose proof (lower_bound_le_size v E) as Hl.
    destruct (N.lt_trichotomy r (lower_bound v E)) as [Hlt | [Heq | Hgt]];
      trivial; exfalso.
    + destruct (at_index_in_range v r) as [x Hx]; [lia |].
      pose proof (lower_bound_below v E r x Hlt Hx) as H1.
      pose proof (Habove r x (N.le_refl r) Hx) as H2.
      exact (Qlt_not_le _ _ H1 H2).
    + destruct (at_index_in_range v (lower_bound v E)) as [x Hx]; [lia |].
      pose proof (lower_bound_stop v E x Hx) as H1.
      pose proof (Hbelow (lower_bound v E) x Hgt Hx) as H2.
      exact (Qlt_not_le _ _ H2 H1).
Qed.

Example lower_bound_bisect_three_edges :
  lower_bound_bisect [1; 2; 3] 2 = 1%N /\
  lower_bound_bisect [1; 2; 3] 1.5 = 1%N /\
  lower_bound_bisect [1; 2; 3] 1 = 0%N.
Proof. repeat split. Qed.

Lemma wrap64_pred (n : N) :
  (1 <= n)%N -> (n <= 2 ^ 64)%N -> wrap64 (Z.of_N n - 1) = N.pred n.
Proof.
  intros H1 H2. unfold wrap64.
  assert (H264 : Z.of_N (2 ^ 64) = (2 ^ 64)%Z) by reflexivity.
  rewrite Z.mod_small by lia. lia.
Qed.

(** ** STCoherentElastic::xs *)

Section CrossSection.

Import STCoherentElastic.

Variable c : t.
Variables (e0 : Q) (rest : list Q).
Hypothesis edges : bragg_edges_ c = e0 :: rest.

(** Below the first edge the cross section vanishes. *)
Lemma xs_below_first_edge (E : Q) : E < e0 -> xs c E = Some 0.
Proof.
  intros HE. unfold xs. rewrite edges. cbv zeta.
  assert (Hgt : Qgtb E e0 = false).
  { unfold Qgtb. apply Qltb_false. now apply Qlt_le_weak. }
  rewrite Hgt. simpl. apply Qltb_true in HE. now rewrite HE.
Qed.

(** Exactly at the first edge neither guard holds and control reaches the
    final [else]: the last structure factor sum is used. *)
Lemma xs_at_first_edge (E : Q) :
  E == e0 ->
  xs c E = match back (structure_factor_sum_ c) with
           | Some s => Some (s / E)
           | None => None
           end.
Proof.
  intros HE. unfold xs. rewrite edges. cbv zeta.
  assert (Hgt : Qgtb E e0 = false).
  { unfold Qgtb. apply Qltb_false. rewrite HE. apply Qle_refl. }
  assert (Hlt : Qltb E e0 = false).
  { apply Qltb_false. rewrite HE. apply Qle_refl. }
  now rewrite Hgt, Hlt.
Qed.

(** At or above the last edge the last structure factor sum is used. *)
Lemma xs_above_last_edge (E : Q) :
  e0 <= E -> last rest e0 <= E ->
  xs c E = match back (structure_factor_sum_ c) with
           | Some s => Some (s / E)
           | None => None
           end.
Proof.
  intros H0 HE. unfold xs. rewrite edges. cbv zeta.
  apply Qltb_false in HE, H0. rewrite HE, H0.
  now rewrite andb_false_r.
Qed.

(** Strictly between the first and the last edge the index used is that
    of the last edge strictly below [E]: the edge at [l] is less than [E]
    and the next one is not. *)
Lemma xs_between_edges (E : Q) :
  (size (bragg_edges_ c) <= 2 ^ 64)%N ->
  e0 < E -> E < last rest e0 ->
  exists l el eu,
    lower_bound (bragg_edges_ c) E = N.succ l /\
    at_index (bragg_edges_ c) l = Some el /\
    at_index (bragg_edges_ c) (N.succ l) = Some eu /\
    el < E /\ E <= eu /\
    xs c E = match at_index (structure_factor_sum_ c) l with
             | Some s => Some (s / E)
             | None => None
             end.
Proof.
  intros Hsize Hlo Hhi.
  assert (Hguard : Qgtb E e0 && Qltb E (last rest e0) = true).
  { unfold Qgtb. apply Qltb_true in Hlo, Hhi. now rewrite Hlo, Hhi. }
  pose proof (lower_bound_interior e0 rest E Hguard) as [H1 Hn].
  rewrite <- edges in H1, Hn.
  set (lb := lower_bound (bragg_edges_ c) E) in *.
  destruct (at_index_in_range (bragg_edges_ c) (N.pred lb)) as [el Hel];
    [lia |].
  destruct (at_index_in_range (bragg_edges_ c) lb Hn) as [eu Heu].
  exists (N.pred lb), el, eu.
  assert (Hsucc : N.succ (N.pred lb) = lb) by lia.
  rewrite Hsucc. repeat split; trivial.
  - apply (lower_bound_below (bragg_edges_ c) E (N.pred lb)); trivial.
    fold lb. lia.
  - now apply (lower_bound_stop (bragg_edges_ c)).
  - unfold xs. rewrite edges. cbv zeta. rewrite Hguard.
    rewrite <- edges. fold lb. rewrite wrap64_pred by lia. reflexivity.
Qed.

(** Away from the edges themselves this is the index the specification
    describes, that of the greatest edge less than or equal to [E]. *)
Lemma xs_between_edges_off_edge (E : Q) :
  (size (bragg_edges_ c) <= 2 ^ 64)%N ->
  e0 < E -> E < last rest e0 ->
  (forall x, In x (bragg_edges_ c) -> ~ x == E) ->
  xs c E = xs_greatest_edge_le c E.
Proof.
  intros Hsize Hlo Hhi Hoff.
  destruct (xs_between_edges E Hsize Hlo Hhi)
    as (l & el & eu & Hlb & _ & _ & _ & _ & Hxs).
  rewrite Hxs. unfold xs_greatest_edge_le.
  rewrite (upper_bound_lower_bound _ _ Hoff), Hlb.
  unfold decrement.
  destruct (N.eqb_spec (N.succ l) 0) as [H0 | _]; [lia |].
  now rewrite N.pred_succ.
Qed.

(** Exactly at an interior edge, the edge at position [l + 1] of a strictly
    increasing vector, the search stops at that edge and the index used
    is [l], that of the interval below the edge. *)
Lemma xs_at_interior_edge (l : N) (e E : Q) :
  strictly_increasing (bragg_edges_ c) = true ->
  (size (bragg_edges_ c) <= 2 ^ 64)%N ->
  at_index (bragg_edges_ c) (N.succ l) = Some e ->
  E == e ->
  e0 < E -> E < last rest e0 ->
  xs c E = match at_index (structure_factor_sum_ c) l with
           | Some s => Some (s / E)
           | None => None
           end.
Proof.
  intros Hs Hsize He HE Hlo Hhi.
  destruct (xs_between_edges E Hsize Hlo Hhi)
    as (l' & el & eu & Hlb & Hel & Heu & Hlt & Hle & Hxs).
  assert (Hupper : (lower_bound (bragg_edges_ c) E <= N.succ l)%N).
  { destruct (N.le_gt_cases (lower_bound (bragg_edges_ c) E) (N.succ l))
      as [Hok | Hgt]; trivial.
    pose proof (lower_bound_below _ _ _ _ Hgt He) as Hbelow.
    rewrite HE in Hbelow. exfalso. exact (Qlt_irrefl _ Hbelow). }
  assert (Hlower : (l < lower_bound (bragg_edges_ c) E)%N).
  { destruct (at_index_in_range (bragg_edges_ c) l) as [a Ha].
    { apply at_index_Some_in_range in He. lia. }
    apply (lower_bound_sorted _ _ _ a); trivial.
    rewrite HE. exact (strictly_increasing_adjacent _ _ _ _ Hs Ha He). }
  assert (Heq : l' = l) by lia.
  now rewrite Hxs, Heq.
Qed.

End CrossSection.

(** C1.  At an energy equal to the first Bragg edge [xs] does not return 0:
    for the edges 1, 2, 3 with sums 10, 20, 30 the call [xs(1)] takes the
    final [else] branch and returns [structure_factor_sum.back() / E], that
    is 30. *)
Theorem xs_first_edge_returns_last_sum :
  STCoherentElastic.xs three_edges 1 = Some (30 / 1) /\
  ~ 30 / 1 == 0.
Proof.
  split.
  - reflexivity.
  - intros H. vm_compute in H. discriminate H.
Qed.

(** C3.  At an energy equal to an interior Bragg edge [xs] uses the sum of
    the previous interval: for the edges 1, 2, 3 with sums 10, 20, 30 the
    call [xs(2)] returns [structure_factor_sum[0] / 2], whereas the index of
    the greatest edge not above 2 is 1 and gives [structure_factor_sum[1] / 2]. *)
Theorem xs_interior_edge_uses_previous_sum :
  STCoherentElastic.xs three_edges 2 = Some (10 / 2) /\
  xs_greatest_edge_le three_edges 2 = Some (20 / 2) /\
  ~ 10 / 2 == 20 / 2.
Proof.
  split; [reflexivity | split; [reflexivity |]].
  intros H. vm_compute in H. discriminate H.
Qed.

(** C6.  The worked cross sections of the three-edge table, and the
    vanishing cross section of a table without edges. *)
Theorem xs_examples :
  STCoherentElastic.xs three_edges 0.5 = Some 0 /\
  STCoherentElastic.xs three_edges 1.5 = Some (10 / 1.5) /\
  STCoherentElastic.xs three_edges 5 = Some (30 / 5) /\
  (forall sums E, STCoherentElastic.xs (no_edges sums) E = Some 0).
Proof.
  split; [reflexivity | split; [reflexivity | split; [reflexivity |]]].
  intros sums E. reflexivity.
Qed.

(** ** STCoherentElastic::sample_angle_energy *)

Lemma cosine_in_range (a b : Q) :
  0 <= a -> a <= b -> 0 < b ->
  -1 <= 1 - (2 * a / b) /\ 1 - (2 * a / b) <= 1.
Proof.
  intros Ha Hab Hb.
  assert (Hlo : 0 <= 2 * a / b) by (apply Qle_shift_div_l; lra).
  assert (Hhi : 2 * a / b <= 2) by (apply Qle_shift_div_r; lra).
  split; lra.
Qed.

Section Sampling.

Import STCoherentElastic.

Variables (e0 : Q) (rest sums : list Q).

(** With at least one edge the call always completes, never touches the
    generator, and scatters at an edge [Ei] chosen as follows. *)
Lemma sample_angle_energy_edge (E_in : Q) (r : Rng.t) :
  exists Ei,
    sample_angle_energy (mk (e0 :: rest) sums) E_in r
      = Some (packet (1 - (2 * Ei / E_in)) E_in, r) /\
    ((e0 < E_in /\ E_in < last rest e0 /\ In Ei (e0 :: rest) /\ Ei < E_in) \/
     (E_in < e0 /\ Ei = 0) \/
     (e0 <= E_in /\ (E_in <= e0 \/ last rest e0 <= E_in) /\
      Ei = last rest e0)).
Proof.
  unfold sample_angle_energy. cbn [bragg_edges_]. cbv zeta.
  destruct (Qgtb E_in e0 && Qltb E_in (last rest e0)) eqn:Hguard.
  - pose proof (lower_bound_interior e0 rest E_in Hguard) as [H1 Hn].
    apply andb_prop in Hguard as [Hlo Hhi].
    unfold Qgtb in Hlo. apply Qltb_true in Hlo, Hhi.
    set (lb := lower_bound (e0 :: rest) E_in) in *.
    destruct (at_index_in_range (e0 :: rest) (N.pred lb)) as [Ei HEi];
      [lia |].
    exists Ei. split.
    + unfold bind, access, ret, decrement.
      destruct (N.eqb_spec lb 0) as [H0 | _]; [lia |].
      now rewrite HEi.
    + left. repeat split; trivial.
      * now apply at_index_In in HEi.
      * apply (lower_bound_below (e0 :: rest) E_in (N.pred lb)); trivial.
        fold lb. lia.
  - destruct (Qltb_spec E_in e0) as [Hlt | Hge].
    + exists 0. split; [reflexivity |]. right. left. now split.
    + exists (last rest e0). split; [reflexivity |]. right. right.
      apply Qnot_lt_le in Hge. repeat split; trivial.
      apply andb_false_iff in Hguard as [Hg | Hg].
      * left. unfold Qgtb in Hg. now apply Qltb_false in Hg.
      * right. now apply Qltb_false in Hg.
Qed.

(** Where the cosine stays within [-1, 1]: edges that are not negative, a
    positive incident energy, and an incident energy that is not the
    first of several edges. *)
Lemma sample_angle_energy_range (E_in : Q) (r : Rng.t) :
  non_negative (e0 :: rest) = true ->
  0 < E_in ->
  ~ E_in == e0 \/ last rest e0 <= E_in ->
  exists p,
    sample_angle_energy (mk (e0 :: rest) sums) E_in r = Some (p, r) /\
    -1 <= cosine_angle p /\ cosine_angle p <= 1 /\ 0 <= energy p.
Proof.
  intros Hnn Hpos Hoff.
  destruct (sample_angle_energy_edge E_in r) as (Ei & Hrun & Hcase).
  exists (packet (1 - (2 * Ei / E_in)) E_in). split; trivial.
  cbn [cosine_angle energy].
  assert (Hall : forall x, In x (e0 :: rest) -> 0 <= x).
  { intros x Hx. unfold non_negative in Hnn.
    rewrite forallb_forall in Hnn. specialize (Hnn x Hx).
    apply negb_true_iff in Hnn. now apply Qltb_false in Hnn. }
  assert (HEi : 0 <= Ei /\ Ei <= E_in).
  { destruct Hcase as [(_ & _ & Hin & Hlt) | [(_ & ->) | (Hge & Hor & ->)]].
    - split; [now apply Hall | now apply Qlt_le_weak].
    - split; [apply Qle_refl | now apply Qlt_le_weak].
    - split; [apply Hall, last_In |].
      destruct Hoff as [Hne | Hlast]; trivial.
      destruct Hor as [Hle | Hlast]; trivial.
      exfalso. apply Hne. now apply Qle_antisym. }
  destruct HEi as [HEi0 HEi1].
  destruct (cosine_in_range Ei E_in HEi0 HEi1 Hpos) as [Hlo Hhi].
  repeat split; trivial. now apply Qlt_le_weak.
Qed.

(** At an incident energy equal to the first of several positive edges the
    last edge is selected and the cosine falls below -1. *)
Lemma sample_angle_energy_at_first_edge (E_in : Q) (r : Rng.t) :
  0 < e0 -> e0 < last rest e0 -> E_in == e0 ->
  exists p,
    sample_angle_energy (mk (e0 :: rest) sums) E_in r = Some (p, r) /\
    cosine_angle p < -1.
Proof.
  intros Hpos Hlast HE.
  destruct (sample_angle_energy_edge E_in r) as (Ei & Hrun & Hcase).
  exists (packet (1 - (2 * Ei / E_in)) E_in). split; trivial.
  cbn [cosine_angle].
  assert (HEi : Ei = last rest e0).
  { destruct Hcase as [(Hgt & _) | [(Hlt & _) | (_ & _ & H)]]; trivial.
    - rewrite HE in Hgt. exfalso. exact (Qlt_irrefl _ Hgt).
    - rewrite HE in Hlt. exfalso. exact (Qlt_irrefl _ Hlt). }
  subst Ei.
  assert (Hin : 0 < E_in) by (rewrite HE; exact Hpos).
  assert (Hdiv : 2 < 2 * last rest e0 / E_in).
  { apply Qlt_shift_div_l; trivial. rewrite HE. lra. }
  lra.
Qed.

End Sampling.

(** C2.  The sampled cosine can leave [-1, 1]: for the edges 1, 2, 3 and
    the incident energy 1 (the first edge) the final [else] branch selects
    the last edge, so the call returns the cosine [1 - 2 * 3 / 1 = -5]. *)
Theorem sample_angle_energy_first_edge_cosine :
  forall r : Rng.t,
    exists p,
      STCoherentElastic.sample_angle_energy three_edges 1 r = Some (p, r) /\
      STCoherentElastic.cosine_angle p == -5 /\
      STCoherentElastic.cosine_angle p < -1.
Proof.
  intros r. exists (STCoherentElastic.packet (1 - (2 * 3 / 1)) 1).
  split; [reflexivity |]. split.
  - vm_compute. reflexivity.
  - vm_compute. reflexivity.
Qed.

(** C7.  The worked samples of the three-edge table; the outgoing energy
    equals the incident one for every table with at least one edge; a table
    without edges yields cosine 1 and energy 0.  No call draws a variate. *)
Theorem sample_angle_energy_examples :
  (forall r, returns_without_drawing
               (STCoherentElastic.sample_angle_energy three_edges 0.5) r
               1 0.5) /\
  (forall r, returns_without_drawing
               (STCoherentElastic.sample_angle_energy three_edges 1.5) r
               (1 - 2 / 1.5) 1.5) /\
  (forall r, returns_without_drawing
               (STCoherentElastic.sample_angle_energy three_edges 5) r
               (1 - 6 / 5) 5) /\
  (forall e0 rest sums E_in r,
      exists mu,
        returns_without_drawing
          (STCoherentElastic.sample_angle_energy
             (STCoherentElastic.mk (e0 :: rest) sums) E_in) r
          mu E_in) /\
  (forall sums E_in r,
      STCoherentElastic.sample_angle_energy (no_edges sums) E_in r
        = Some (STCoherentElastic.packet 1 0, r)).
Proof.
  split; [| split; [| split; [| split]]].
  - intros r. exists (STCoherentElastic.packet (1 - (2 * 0 / 0.5)) 0.5).
    split; [reflexivity |]. split; [| reflexivity].
    vm_compute. reflexivity.
  - intros r. exists (STCoherentElastic.packet (1 - (2 * 1 / 1.5)) 1.5).
    split; [reflexivity |]. split; [| reflexivity].
    vm_compute. reflexivity.
  - intros r. exists (STCoherentElastic.packet (1 - (2 * 3 / 5)) 5).
    split; [reflexivity |]. split; [| reflexivity].
    vm_compute. reflexivity.
  - intros e0 rest sums E_in r.
    destruct (sample_angle_energy_edge e0 rest sums E_in r) as (Ei & Hrun & _).
    exists (1 - (2 * Ei / E_in)). eexists. split; [exact Hrun |].
    split; reflexivity.
  - intros sums E_in r. reflexivity.
Qed.

(** C9.  Neither density is available, whatever the arguments. *)
Theorem densities_unavailable :
  forall (c : STCoherentElastic.t) (E_in mu E_out : Q),
    STCoherentElastic.angle_pdf c E_in mu = None /\
    STCoherentElastic.pdf c E_in mu E_out = None.
Proof.
  intros c E_in mu E_out. split; reflexivity.
Qed.

(** ** Range reads *)

Lemma xss_range_length (a : ACE.t) (i : N) (n : nat) (l : list Q) :
  ACE.xss_range a i n = Some l -> length l = n.
Proof.
  revert i l. induction n as [| n IH]; intros i l; simpl.
  - now intros [= <-].
  - destruct (ACE.xss a i) as [x |]; [| discriminate].
    destruct (ACE.xss_range a (N.succ i) n) as [xs |] eqn:Hxs;
      [| discriminate].
    intros [= <-]. simpl. f_equal. now apply (IH (N.succ i)).
Qed.

(** ** GeneralEvaporation::GeneralEvaporation *)

Section Construction.

Import GeneralEvaporation.

Variable to_Interpolation : Q -> option Interpolation.

(** Where the constructor finds the counts and the bin bounds: the
    range read for the bins starts at the offset of the count NX. *)
Lemma constructor_layout (ace : ACE.t) (i : N) (g : t) :
  GeneralEvaporation to_Interpolation ace i = Some g ->
  exists NR NE NX,
    ACE.xss_as to_uint32 ace i = Some NR /\
    ACE.xss_as to_uint32 ace (i .+ 1 .+ 2 .* NR) = Some NE /\
    ACE.xss_as to_uint32 ace (i .+ 2 .+ 2 .* NR .+ 2 .* NE) = Some NX /\
    ACE.xss_range_as Some ace (i .+ 2 .+ 2 .* NR .+ 2 .* NE) NX
      = Some (bin_bounds_ g).
Proof.
  unfold GeneralEvaporation. intros H.
  destruct (ACE.xss_as to_uint32 ace i) as [NR |]; [| discriminate].
  destruct (ACE.xss_as to_uint32 ace (i .+ 1 .+ 2 .* NR))
    as [NE |] eqn:HNE; [| discriminate].
  destruct (if (NR =? 0)%N then _ else _) as [tables |]; [| discriminate].
  cbv zeta in H.
  destruct (ACE.xss_range_as Some ace (i .+ 2 .+ 2 .* NR) NE)
    as [energy |]; [| discriminate].
  destruct (ACE.xss_range_as Some ace (i .+ 2 .+ 2 .* NR .+ NE) NE)
    as [temperature |]; [| discriminate].
  destruct (ACE.xss_as to_uint32 ace (i .+ 2 .+ 2 .* NR .+ 2 .* NE))
    as [NX |] eqn:HNX; [| discriminate].
  destruct (ACE.xss_range_as Some ace (i .+ 2 .+ 2 .* NR .+ 2 .* NE) NX)
    as [bins |] eqn:Hbins; [| discriminate].
  destruct (if (size (fst tables) =? 1)%N then _ else _) as [T |];
    [| discriminate].
  injection H as <-. exists NR, NE, NX. cbn [bin_bounds_].
  repeat split; trivial.
Qed.

(** With NR = 0 the temperature is built as a single linear-linear
    region over the NE energies and NE temperatures that follow NE. *)
Lemma constructor_single_region (ace : ACE.t) (i : N) (g : t) :
  GeneralEvaporation to_Interpolation ace i = Some g ->
  ACE.xss_as to_uint32 ace i = Some 0%N ->
  exists NE energy temperature,
    ACE.xss_as to_uint32 ace (i .+ 1 .+ 2 .* 0) = Some NE /\
    ACE.xss_range_as Some ace (i .+ 2 .+ 2 .* 0) NE = Some energy /\
    ACE.xss_range_as Some ace (i .+ 2 .+ 2 .* 0 .+ NE) NE
      = Some temperature /\
    temperature_ g = Region1D energy temperature LinLin.
Proof.
  unfold GeneralEvaporation. intros H HNR. rewrite HNR in H.
  destruct (ACE.xss_as to_uint32 ace (i .+ 1 .+ 2 .* 0))
    as [NE |] eqn:HNE; [| discriminate].
  cbn [N.eqb fst snd] in H. cbv zeta in H.
  destruct (ACE.xss_range_as Some ace (i .+ 2 .+ 2 .* 0) NE)
    as [energy |] eqn:Henergy; [| discriminate].
  destruct (ACE.xss_range_as Some ace (i .+ 2 .+ 2 .* 0 .+ NE) NE)
    as [temperature |] eqn:Htemperature; [| discriminate].
  destruct (ACE.xss_as to_uint32 ace (i .+ 2 .+ 2 .* 0 .+ 2 .* NE))
    as [NX |]; [| discriminate].
  destruct (ACE.xss_range_as Some ace (i .+ 2 .+ 2 .* 0 .+ 2 .* NE) NX)
    as [bins |]; [| discriminate].
  change (size [NE] =? 1)%N with true in H. cbn [at_index N.eqb] in H.
  injection H as <-. exists NE, energy, temperature. cbn [temperature_].
  repeat split; trivial.
Qed.

Lemma convert_Some (l : list Q) : ACE.convert Some l = Some l.
Proof.
  induction l as [| x l IH]; simpl; trivial. now rewrite IH.
Qed.

(** The first bin bound stored is the number found at the offset of NX,
    that is, the count itself. *)
Lemma constructor_first_bound_is_count (ace : ACE.t) (i : N) (g : t) :
  GeneralEvaporation to_Interpolation ace i = Some g ->
  exists NR NE NX x,
    ACE.xss_as to_uint32 ace i = Some NR /\
    ACE.xss_as to_uint32 ace (i .+ 1 .+ 2 .* NR) = Some NE /\
    ACE.xss ace (i .+ 2 .+ 2 .* NR .+ 2 .* NE) = Some x /\
    to_uint32 x = Some NX /\
    size (bin_bounds_ g) = NX /\
    (NX <> 0%N -> exists bounds, bin_bounds_ g = x :: bounds).
Proof.
  intros H. destruct (constructor_layout ace i g H) as (NR & NE & NX & H1 & H2 & H3 & H4).
  unfold ACE.xss_as in H3.
  destruct (ACE.xss ace (i .+ 2 .+ 2 .* NR .+ 2 .* NE)) as [x |] eqn:Hx;
    [| discriminate].
  exists NR, NE, NX, x. repeat split; trivial.
  - unfold ACE.xss_range_as in H4.
    destruct (ACE.xss_range ace (i .+ 2 .+ 2 .* NR .+ 2 .* NE) (N.to_nat NX))
      as [bins |] eqn:Hbins; [| discriminate].
    rewrite convert_Some in H4. injection H4 as <-.
    unfold size. rewrite (xss_range_length _ _ _ _ Hbins). lia.
  - intros HNX. unfold ACE.xss_range_as in H4.
    destruct (N.to_nat NX) as [| n] eqn:Hn; [lia |].
    cbn [ACE.xss_range] in H4. rewrite Hx in H4.
    destruct (ACE.xss_range ace (N.succ (i .+ 2 .+ 2 .* NR .+ 2 .* NE)) n)
      as [bins |]; [| discriminate].
    rewrite convert_Some in H4. injection H4 as <-. now exists bins.
Qed.

End Construction.

(** C4.  The bin bounds are not read from one past the count NX but from
    the offset of NX itself: for a record holding NX = 3 followed by the
    bounds 0, 1, 2 the constructor stores the bounds 3, 0, 1, while the
    three values behind the count are 0, 1, 2.  The other fields of the
    record (NR = 0, NE = 2, energies, temperatures) are read as laid out. *)
Theorem constructor_reads_bins_from_count :
  forall to_Interpolation : Q -> option Interpolation,
    GeneralEvaporation.GeneralEvaporation to_Interpolation evaporation_record 0
      = Some (GeneralEvaporation.mk (Region1D [1; 2] [5; 6] LinLin) [3; 0; 1]) /\
    ACE.xss_as to_uint32 evaporation_record 6 = Some 3%N /\
    ACE.xss_range_as Some evaporation_record 7 3 = Some [0; 1; 2].
Proof.
  intros to_Interpolation. repeat split.
Qed.

(** ** GeneralEvaporation::sample_energy *)

Section EnergySampling.

Import GeneralEvaporation.

Variable evaluate : Tabulated1D -> Q -> Q.

(** A call draws two variates and multiplies the factor [chi], which the
    incident energy does not enter, by the temperature. *)
Lemma sample_energy_chi (g : t) (E_in : Q) (r : Rng.t) :
  sample_energy evaluate g E_in r
    = match chi (bin_bounds_ g) (Rng.peek 0 r) (Rng.peek 1 r) with
      | Some x => Some (x * evaluate (temperature_ g) E_in, Rng.advance 2 r)
      | None => None
      end.
Proof.
  unfold sample_energy, chi, bind, call_rng, access, ret.
  unfold Rng.draw, Rng.peek, Rng.advance. cbn [Rng.variates Rng.drawn plus].
  destruct (select_bin (bin_bounds_ g) (Rng.variates r (Rng.drawn r)))
    as [bin |]; trivial.
  destruct (at_index (bin_bounds_ g) (bin .+ 1)) as [upper |]; trivial.
  destruct (at_index (bin_bounds_ g) bin) as [lower |]; trivial.
Qed.

Lemma floor_between (x : Q) (n : Z) :
  inject_Z n <= x -> x < inject_Z n + 1 -> Qfloor x = n.
Proof.
  intros Hlo Hhi.
  assert (H1 : (n <= Qfloor x)%Z).
  { rewrite <- (Qfloor_Z n). now apply Qfloor_resp_le. }
  assert (H2 : (Qfloor x < n + 1)%Z).
  { rewrite Zlt_Qlt, inject_Z_plus.
    apply Qle_lt_trans with x; trivial. apply Qfloor_le. }
  lia.
Qed.

Lemma inject_Z_pred (z : Z) : inject_Z (z - 1) = inject_Z z - 1.
Proof. unfold Zminus. rewrite inject_Z_plus. reflexivity. Qed.

(** With a first variate in the last [1 / size] of the unit interval the
    selected bin is the last index, and the read of its upper bound falls
    outside the vector. *)
Lemma sample_energy_last_bin (g : t) (E_in : Q) (r : Rng.t) :
  (1 <= size (bin_bounds_ g) < 2 ^ 64)%N ->
  inject_Z (Z.of_N (size (bin_bounds_ g))) - 1
    <= inject_Z (Z.of_N (size (bin_bounds_ g))) * Rng.peek 0 r ->
  Rng.peek 0 r < 1 ->
  select_bin (bin_bounds_ g) (Rng.peek 0 r)
    = Some (N.pred (size (bin_bounds_ g))) /\
  at_index (bin_bounds_ g) (N.pred (size (bin_bounds_ g)) .+ 1) = None /\
  sample_energy evaluate g E_in r = None.
Proof.
  intros Hn Hlo Hhi.
  set (n := size (bin_bounds_ g)) in *.
  assert (H264 : Z.of_N (2 ^ 64) = (2 ^ 64)%Z) by reflexivity.
  assert (Hn0 : 0 < inject_Z (Z.of_N n)).
  { change 0 with (inject_Z 0). rewrite <- Zlt_Qlt. lia. }
  assert (Hfloor : Qfloor (inject_Z (Z.of_N n) * Rng.peek 0 r)
                   = (Z.of_N n - 1)%Z).
  { apply floor_between; rewrite inject_Z_pred.
    - exact Hlo.
    - assert (inject_Z (Z.of_N n) * Rng.peek 0 r
              < inject_Z (Z.of_N n) * 1);
        [apply Qmult_lt_l; trivial | lra]. }
  assert (Hbin : select_bin (bin_bounds_ g) (Rng.peek 0 r)
                 = Some (N.pred n)).
  { unfold select_bin, to_size_t. fold n. rewrite Hfloor.
    destruct (Z.leb_spec 0 (Z.of_N n - 1)); [| lia].
    destruct (Z.ltb_spec (Z.of_N n - 1) (2 ^ 64)); [| lia].
    simpl. f_equal. lia. }
  assert (Hup : at_index (bin_bounds_ g) (N.pred n .+ 1) = None).
  { apply at_index_out_of_range. fold n.
    unfold size_add, wrap64. rewrite Z.mod_small by lia. lia. }
  split; [exact Hbin | split; [exact Hup |]].
  rewrite sample_energy_chi. unfold chi. now rewrite Hbin, Hup.
Qed.

(** With a first variate below that, both reads stay inside the vector
    and the call completes. *)
Lemma sample_energy_completes (g : t) (E_in : Q) (r : Rng.t) :
  (size (bin_bounds_ g) < 2 ^ 64)%N ->
  0 <= Rng.peek 0 r ->
  inject_Z (Z.of_N (size (bin_bounds_ g))) * Rng.peek 0 r
    < inject_Z (Z.of_N (size (bin_bounds_ g))) - 1 ->
  exists E_out,
    sample_energy evaluate g E_in r = Some (E_out, Rng.advance 2 r).
Proof.
  intros Hn Hlo Hhi.
  set (n := size (bin_bounds_ g)) in *.
  set (x := inject_Z (Z.of_N n) * Rng.peek 0 r) in *.
  assert (H264 : Z.of_N (2 ^ 64) = (2 ^ 64)%Z) by reflexivity.
  assert (Hx0 : 0 <= x).
  { apply Qmult_le_0_compat; trivial.
    change 0 with (inject_Z 0). rewrite <- Zle_Qle. lia. }
  assert (Hf0 : (0 <= Qfloor x)%Z).
  { change 0%Z with (Qfloor (inject_Z 0)). now apply Qfloor_resp_le. }
  assert (Hf1 : (Qfloor x < Z.of_N n - 1)%Z).
  { rewrite Zlt_Qlt, inject_Z_pred.
    apply Qle_lt_trans with x; [apply Qfloor_le | exact Hhi]. }
  assert (Hbin : select_bin (bin_bounds_ g) (Rng.peek 0 r)
                 = Some (Z.to_N (Qfloor x))).
  { unfold select_bin, to_size_t. fold n. fold x.
    destruct (Z.leb_spec 0 (Qfloor x)); [| lia].
    destruct (Z.ltb_spec (Qfloor x) (2 ^ 64)); [| lia].
    reflexivity. }
  destruct (at_index_in_range (bin_bounds_ g) (Z.to_N (Qfloor x) .+ 1))
    as [upper Hupper].
  { fold n. unfold size_add, wrap64. rewrite Z.mod_small by lia. lia. }
  destruct (at_index_in_range (bin_bounds_ g) (Z.to_N (Qfloor x)))
    as [lower Hlower].
  { fold n. lia. }
  rewrite sample_energy_chi. unfold chi. rewrite Hbin, Hupper, Hlower.
  eexists. reflexivity.
Qed.

End EnergySampling.

(** C5.  A read of [bin_bounds] can fall outside the vector although both
    variates lie in [0, 1): with the strictly increasing bounds 0, 1, 2 and
    the variates 0.9 and 0.5, the selected bin is [floor(3 * 0.9) = 2] and
    the read of [bin_bounds[bin + 1]] is at index 3, one past the end. *)
Theorem sample_energy_reads_past_the_end :
  forall (evaluate : Tabulated1D -> Q -> Q) (E_in : Q),
    strictly_increasing (GeneralEvaporation.bin_bounds_ three_bounds) = true /\
    size (GeneralEvaporation.bin_bounds_ three_bounds) = 3%N /\
    GeneralEvaporation.select_bin
      (GeneralEvaporation.bin_bounds_ three_bounds) 0.9 = Some 2%N /\
    at_index (GeneralEvaporation.bin_bounds_ three_bounds) (2 .+ 1)
      = None /\
    GeneralEvaporation.sample_energy evaluate three_bounds E_in
      (Rng.scripted [0.9; 0.5]) = None.
Proof.
  intros evaluate E_in. repeat split.
Qed.

(** The bin computed from a first variate is the integer part of the
    product of the size and that variate. *)
Lemma select_bin_selects (bin_bounds : list Q) (xi1 : Q) (bin : N) :
  GeneralEvaporation.select_bin bin_bounds xi1 = Some bin ->
  selects_bin (size bin_bounds) xi1 bin.
Proof.
  unfold GeneralEvaporation.select_bin, to_size_t, selects_bin.
  remember (inject_Z (Z.of_N (size bin_bounds)) * xi1) as x eqn:Hx.
  clear Hx.
  destruct (Z.leb_spec 0 (Qfloor x)) as [H0 | H0]; [| discriminate].
  destruct (Z.ltb_spec (Qfloor x) (2 ^ 64)) as [H1 | H1]; [| discriminate].
  cbn [andb]. intros [= <-]. rewrite Z2N.id by exact H0.
  pose proof (Qfloor_le x) as Hle.
  pose proof (Qlt_floor x) as Hlt. rewrite inject_Z_plus in Hlt.
  change (inject_Z 1) with 1 in Hlt.
  assert (Hf : 0 <= inject_Z (Qfloor x)).
  { change 0 with (inject_Z 0). now rewrite <- Zle_Qle. }
  unfold rounding_margin.
  generalize dependent (inject_Z (Qfloor x)). intros f Hle Hlt Hf.
  split; lra.
Qed.

(** C8.  With the bin bounds 0, 1, 2, a temperature of 2 at the incident
    energy and the variates 0.1 then 0.5, the call selects bin 0, forms
    chi = 0.5 and returns 1; and every call that completes has drawn exactly
    two variates: the first fixes the bin, as the integer part of the size
    times that variate, and the second fixes the position between the two
    bounds of that bin. *)
Theorem sample_energy_example :
  (forall (evaluate : Tabulated1D -> Q -> Q) (g : GeneralEvaporation.t)
          (E_in : Q) (r : Rng.t),
      GeneralEvaporation.bin_bounds_ g = [0; 1; 2] ->
      evaluate (GeneralEvaporation.temperature_ g) E_in == 2 ->
      Rng.peek 0 r == 0.1 ->
      Rng.peek 1 r == 0.5 ->
      GeneralEvaporation.select_bin
        (GeneralEvaporation.bin_bounds_ g) (Rng.peek 0 r) = Some 0%N /\
      (exists x,
          chi (GeneralEvaporation.bin_bounds_ g) (Rng.peek 0 r) (Rng.peek 1 r)
            = Some x /\ x == 0.5) /\
      (exists E_out,
          GeneralEvaporation.sample_energy evaluate g E_in r
            = Some (E_out, Rng.advance 2 r) /\ E_out == 1)) /\
  (forall (evaluate : Tabulated1D -> Q -> Q) (g : GeneralEvaporation.t)
          (E_in : Q) (r : Rng.t) (E_out : Q) (r' : Rng.t),
      GeneralEvaporation.sample_energy evaluate g E_in r = Some (E_out, r') ->
      r' = Rng.advance 2 r /\
      exists bin lower upper,
        selects_bin (size (GeneralEvaporation.bin_bounds_ g))
                    (Rng.peek 0 r) bin /\
        at_index (GeneralEvaporation.bin_bounds_ g) bin = Some lower /\
        at_index (GeneralEvaporation.bin_bounds_ g) (bin .+ 1)
          = Some upper /\
        E_out = ((upper - lower) * Rng.peek 1 r + lower)
                * evaluate (GeneralEvaporation.temperature_ g) E_in).
Proof.
  split.
  - intros evaluate g E_in r Hbounds HT Hxi1 Hxi2.
    assert (Hbin : GeneralEvaporation.select_bin
                     (GeneralEvaporation.bin_bounds_ g) (Rng.peek 0 r)
                   = Some 0%N).
    { unfold GeneralEvaporation.select_bin. rewrite Hbounds, Hxi1.
      reflexivity. }
    assert (Hchi : chi (GeneralEvaporation.bin_bounds_ g)
                     (Rng.peek 0 r) (Rng.peek 1 r)
                   = Some ((1 - 0) * Rng.peek 1 r + 0)).
    { unfold chi. rewrite Hbin, Hbounds. reflexivity. }
    split; [exact Hbin | split].
    + eexists. split; [exact Hchi |]. rewrite Hxi2. reflexivity.
    + rewrite sample_energy_chi, Hchi. eexists. split; [reflexivity |].
      rewrite Hxi2, HT. reflexivity.
  - intros evaluate g E_in r E_out r' Hrun.
    rewrite sample_energy_chi in Hrun. unfold chi in Hrun.
    destruct (GeneralEvaporation.select_bin
                (GeneralEvaporation.bin_bounds_ g) (Rng.peek 0 r))
      as [bin |] eqn:Hbin; [| discriminate].
    destruct (at_index (GeneralEvaporation.bin_bounds_ g) (bin .+ 1))
      as [upper |] eqn:Hupper; [| discriminate].
    destruct (at_index (GeneralEvaporation.bin_bounds_ g) bin)
      as [lower |] eqn:Hlower; [| discriminate].
    injection Hrun as <- <-. split; trivial.
    exists bin, lower, upper. repeat split; trivial.
    + exact (proj1 (select_bin_selects _ _ _ Hbin)).
    + exact (proj2 (select_bin_selects _ _ _ Hbin)).
Qed.

Lemma sample_energy_example_witness :
  GeneralEvaporation.select_bin [0; 1; 2] 0.1 = Some 0%N /\
  exists E_out,
    GeneralEvaporation.sample_energy (fun _ _ => 2) three_bounds 7
      (Rng.scripted [0.1; 0.5])
      = Some (E_out, Rng.advance 2 (Rng.scripted [0.1; 0.5])) /\
    E_out == 1.
Proof.
  destruct (proj1 sample_energy_example (fun _ _ => 2) three_bounds 7
              (Rng.scripted [0.1; 0.5]))
    as (Hbin & _ & Hrun).
  - reflexivity.
  - reflexivity.
  - reflexivity.
  - reflexivity.
  - split; [exact Hbin | exact Hrun].
Defined.

Lemma record_builds_constructed (to_Interpolation : Q -> option Interpolation) :
  GeneralEvaporation.GeneralEvaporation to_Interpolation evaporation_record 0
  = Some constructed_from_record.
Proof. reflexivity. Qed.

(** The ratio of two results is not the ratio of the temperatures when the
    factor chi vanishes: for the object built from [evaporation_record]
    (bin bounds 3, 0, 1), the variates 0.5 and 0 select bin 1 and give
    chi = 0, so with the temperatures T(1) = 5 and T(2) = 6 both calls
    return 0. *)
Lemma sample_energy_ratio_fails_at_zero :
  ~ (forall (evaluate : Tabulated1D -> Q -> Q) (g : GeneralEvaporation.t)
            (E1 E2 : Q) (r : Rng.t) (out1 out2 : Q) (r1 r2 : Rng.t),
        GeneralEvaporation.sample_energy evaluate g E1 r = Some (out1, r1) ->
        GeneralEvaporation.sample_energy evaluate g E2 r = Some (out2, r2) ->
        ~ evaluate (GeneralEvaporation.temperature_ g) E2 == 0 ->
        out1 / out2
        == evaluate (GeneralEvaporation.temperature_ g) E1
           / evaluate (GeneralEvaporation.temperature_ g) E2).
Proof.
  intros H.
  specialize (H tabulated_temperature constructed_from_record 1 2
                (Rng.scripted [0.5; 0]) _ _ _ _ eq_refl eq_refl).
  assert (HT : ~ 6 == 0) by (intros H0; vm_compute in H0; discriminate H0).
  specialize (H HT). vm_compute in H. discriminate H.
Qed.

(** C10.  The sampled energy is a factor times the temperature, and the
    factor is fixed by the bin bounds and the two variates alone: neither
    the incident energy nor the temperature table enters it.  Hence two
    calls with the same variates whose temperatures agree return the same
    energy. *)
Theorem sample_energy_factorizes :
  (forall (bin_bounds : list Q) (xi1 xi2 : Q),
      exists factor : option Q,
        forall (evaluate : Tabulated1D -> Q -> Q) (g : GeneralEvaporation.t)
               (E_in : Q) (r : Rng.t),
          GeneralEvaporation.bin_bounds_ g = bin_bounds ->
          Rng.peek 0 r = xi1 ->
          Rng.peek 1 r = xi2 ->
          GeneralEvaporation.sample_energy evaluate g E_in r
          = match factor with
            | Some x =>
                Some (x * evaluate (GeneralEvaporation.temperature_ g) E_in,
                      Rng.advance 2 r)
            | None => None
            end) /\
  (forall (evaluate : Tabulated1D -> Q -> Q) (g : GeneralEvaporation.t)
          (E1 E2 : Q) (r : Rng.t) (out1 out2 : Q) (r1 r2 : Rng.t),
      GeneralEvaporation.sample_energy evaluate g E1 r = Some (out1, r1) ->
      GeneralEvaporation.sample_energy evaluate g E2 r = Some (out2, r2) ->
      evaluate (GeneralEvaporation.temperature_ g) E1
      == evaluate (GeneralEvaporation.temperature_ g) E2 ->
      out1 == out2).
Proof.
  split.
  - intros bin_bounds xi1 xi2. exists (chi bin_bounds xi1 xi2).
    intros evaluate g E_in r <- <- <-. apply sample_energy_chi.
  - intros evaluate g E1 E2 r out1 out2 r1 r2 Hrun1 Hrun2 HT.
    rewrite sample_energy_chi in Hrun1, Hrun2.
    destruct (chi (GeneralEvaporation.bin_bounds_ g)
                (Rng.peek 0 r) (Rng.peek 1 r)) as [x |]; [| discriminate].
    injection Hrun1 as <- _. injection Hrun2 as <- _.
    now rewrite HT.
Qed.

Lemma sample_energy_factorizes_witness :
  ((1 - 0) * 0.5 + 0) * ((3 - 4) * (3 - 4))
  == ((1 - 0) * 0.5 + 0) * ((5 - 4) * (5 - 4)).
Proof.
  apply (proj2 sample_energy_factorizes (fun _ E => (E - 4) * (E - 4))
           constructed_from_record 3 5
           (Rng.scripted [0.5; 0.5])
           (((1 - 0) * 0.5 + 0) * ((3 - 4) * (3 - 4)))
           (((1 - 0) * 0.5 + 0) * ((5 - 4) * (5 - 4)))
           (Rng.advance 2 (Rng.scripted [0.5; 0.5]))
           (Rng.advance 2 (Rng.scripted [0.5; 0.5]))).
  - reflexivity.
  - reflexivity.
  - reflexivity.
Defined.

(** * Further properties of the cross section *)

Lemma first_le_last (e0 : Q) (rest : list Q) :
  strictly_increasing (e0 :: rest) = true -> e0 <= last rest e0.
Proof.
  intros Hs. destruct (last_In rest e0) as [<- | Hin].
  - apply Qle_refl.
  - apply Qlt_le_weak. now apply (strictly_increasing_head e0 rest).
Qed.

Lemma first_le_at_index (e0 : Q) (rest : list Q) (l : N) (el : Q) :
  strictly_increasing (e0 :: rest) = true ->
  at_index (e0 :: rest) l = Some el -> e0 <= el.
Proof.
  intros Hs Hl. destruct (N.eq_dec l 0) as [-> | Hne].
  - injection Hl as <-. apply Qle_refl.
  - apply Qlt_le_weak.
    apply (strictly_increasing_at_index (e0 :: rest) 0 l); trivial. lia.
Qed.

Lemma at_index_le_last (e0 : Q) (rest : list Q) (l : N) (el : Q) :
  strictly_increasing (e0 :: rest) = true ->
  at_index (e0 :: rest) l = Some el -> el <= last rest e0.
Proof.
  revert e0 l. induction rest as [| e1 rest IH]; intros e0 l Hs Hl.
  - simpl in Hl. destruct (l =? 0)%N; [| discriminate].
    injection Hl as <-. apply Qle_refl.
  - rewrite last_cons.
    simpl in Hl. destruct (N.eqb_spec l 0) as [-> | Hne].
    + injection Hl as <-. apply Qle_trans with e1.
      * apply Qlt_le_weak. apply (strictly_increasing_head e0 (e1 :: rest));
          trivial. now left.
      * apply first_le_last. now apply strictly_increasing_tail in Hs.
    + apply (IH e1 (N.pred l)); trivial.
      now apply strictly_increasing_tail in Hs.
Qed.

(** Between two neighbouring edges of a strictly increasing vector, the
    upper one included, the search stops at the upper edge. *)
Lemma lower_bound_bracket (v : list Q) (E : Q) (l : N) (el eu : Q) :
  strictly_increasing v = true ->
  at_index v l = Some el -> at_index v (N.succ l) = Some eu ->
  el < E -> E <= eu ->
  lower_bound v E = N.succ l.
Proof.
  intros Hs Hl Hu Hlo Hhi.
  pose proof (lower_bound_sorted v E l el Hs Hl Hlo) as H1.
  destruct (N.le_gt_cases (lower_bound v E) (N.succ l)) as [H2 | H2]; [lia |].
  pose proof (lower_bound_below v E (N.succ l) eu H2 Hu) as H3.
  exfalso. exact (Qlt_not_le _ _ H3 Hhi).
Qed.

Lemma back_In {A} (v : list A) (x : A) : back v = Some x -> In x v.
Proof.
  destruct v as [| y v]; simpl.
  - discriminate.
  - intros [= <-]. apply last_In.
Qed.

Lemma non_negative_In (v : list Q) (x : Q) :
  non_negative v = true -> In x v -> 0 <= x.
Proof.
  unfold non_negative. rewrite forallb_forall. intros H Hin.
  specialize (H x Hin). apply negb_true_iff in H. now apply Qltb_false in H.
Qed.

Lemma size_length_eq {A B} (v : list A) (w : list B) :
  length v = length w -> size v = size w.
Proof. unfold size. now intros ->. Qed.

(** X1.  Below the first Bragg edge the cross section is zero, whatever
    the structure factor sums are. *)
Theorem xs_zero_below_first_edge :
  forall (e0 : Q) (rest sums : list Q) (E : Q),
    E < e0 ->
    STCoherentElastic.xs (STCoherentElastic.mk (e0 :: rest) sums) E = Some 0.
Proof.
  intros e0 rest sums E HE.
  now apply (xs_below_first_edge _ e0 rest).
Qed.

Lemma xs_zero_below_first_edge_witness :
  STCoherentElastic.xs (STCoherentElastic.mk [1; 2; 3] [10; 20; 30]) 0.25
  = Some 0.
Proof.
  apply (xs_zero_below_first_edge 1 [2; 3] [10; 20; 30] 0.25).
  reflexivity.
Defined.

(** X2.  At and above the last edge of a strictly increasing table the
    cross section is the last structure factor sum divided by the energy. *)
Theorem xs_last_sum_from_last_edge :
  forall (e0 : Q) (rest sums : list Q) (E s : Q),
    strictly_increasing (e0 :: rest) = true ->
    back sums = Some s ->
    last rest e0 <= E ->
    STCoherentElastic.xs (STCoherentElastic.mk (e0 :: rest) sums) E
    = Some (s / E).
Proof.
  intros e0 rest sums E s Hs Hback HE.
  rewrite (xs_above_last_edge (STCoherentElastic.mk (e0 :: rest) sums) e0 rest eq_refl E); trivial.
  - cbn [STCoherentElastic.structure_factor_sum_]. now rewrite Hback.
  - apply Qle_trans with (last rest e0); trivial. now apply first_le_last.
Qed.

Lemma xs_last_sum_from_last_edge_witness :
  STCoherentElastic.xs (STCoherentElastic.mk [1; 2; 3] [10; 20; 30]) 3
  = Some (30 / 3).
Proof.
  apply (xs_last_sum_from_last_edge 1 [2; 3] [10; 20; 30] 3 30).
  - reflexivity.
  - reflexivity.
  - intros H. discriminate H.
Defined.

(** X3.  When there are as many structure factor sums as edges, [xs] never
    reads outside either vector: it returns a value at every energy. *)
Theorem xs_reads_in_range :
  forall (c : STCoherentElastic.t) (E : Q),
    length (STCoherentElastic.structure_factor_sum_ c)
    = length (STCoherentElastic.bragg_edges_ c) ->
    (size (STCoherentElastic.bragg_edges_ c) <= 2 ^ 64)%N ->
    exists y, STCoherentElastic.xs c E = Some y.
Proof.
  intros [edges sums] E Hlen Hsize.
  cbn [STCoherentElastic.structure_factor_sum_ STCoherentElastic.bragg_edges_]
    in Hlen, Hsize.
  destruct edges as [| e0 rest].
  - now exists 0.
  - destruct (Qlt_le_dec E e0) as [Hlt | Hge].
    + exists 0. now apply (xs_below_first_edge _ e0 rest).
    + destruct (Qlt_le_dec E (last rest e0)) as [Hin | Hout].
      * destruct (Qlt_le_dec e0 E) as [Hgt | Hle].
        -- destruct (xs_between_edges (STCoherentElastic.mk (e0 :: rest) sums)
                       e0 rest eq_refl E Hsize Hgt Hin)
             as (l & el & eu & _ & Hel & _ & _ & _ & Hxs).
           cbn [STCoherentElastic.structure_factor_sum_
                STCoherentElastic.bragg_edges_] in Hel, Hxs.
           destruct (at_index_in_range sums l) as [s Hsum].
           { rewrite (size_length_eq sums (e0 :: rest) Hlen).
             now apply at_index_Some_in_range in Hel. }
           rewrite Hsum in Hxs. now exists (s / E).
        -- assert (HE : E == e0) by now apply Qle_antisym.
           rewrite (xs_at_first_edge (STCoherentElastic.mk (e0 :: rest) sums) e0 rest eq_refl E HE).
           cbn [STCoherentElastic.structure_factor_sum_].
           destruct sums as [| s sums]; [discriminate |].
           now exists (last sums s / E).
      * rewrite (xs_above_last_edge (STCoherentElastic.mk (e0 :: rest) sums) e0 rest eq_refl E Hge Hout).
        cbn [STCoherentElastic.structure_factor_sum_].
        destruct sums as [| s sums]; [discriminate |].
        now exists (last sums s / E).
Qed.

Lemma xs_reads_in_range_witness :
  exists y,
    STCoherentElastic.xs (STCoherentElastic.mk [1; 2; 3] [10; 20; 30]) 2.5
    = Some y.
Proof.
  apply (xs_reads_in_range (STCoherentElastic.mk [1; 2; 3] [10; 20; 30]) 2.5).
  - reflexivity.
  - intros H. discriminate H.
Defined.

(** The bracket rule of [xs]: for an energy above the edge at [l], not
    above the edge at [l + 1] and below the last edge, the sum at [l]
    is used. *)
Lemma xs_in_bracket (e0 : Q) (rest sums : list Q) (l : N) (el eu s E : Q) :
  strictly_increasing (e0 :: rest) = true ->
  (size (e0 :: rest) <= 2 ^ 64)%N ->
  at_index (e0 :: rest) l = Some el ->
  at_index (e0 :: rest) (N.succ l) = Some eu ->
  at_index sums l = Some s ->
  el < E -> E <= eu -> E < last rest e0 ->
  STCoherentElastic.xs (STCoherentElastic.mk (e0 :: rest) sums) E
  = Some (s / E).
Proof.
  intros Hs Hsize Hel Heu Hsum Hlo Hhi Hlast.
  assert (Hfirst : e0 < E).
  { apply Qle_lt_trans with el; trivial.
    now apply (first_le_at_index e0 rest l). }
  destruct (xs_between_edges (STCoherentElastic.mk (e0 :: rest) sums)
              e0 rest eq_refl E Hsize Hfirst Hlast)
    as (l' & _ & _ & Hlb & _ & _ & _ & _ & Hxs).
  cbn [STCoherentElastic.structure_factor_sum_
       STCoherentElastic.bragg_edges_] in Hlb, Hxs.
  rewrite (lower_bound_bracket _ _ l el eu Hs Hel Heu Hlo Hhi) in Hlb.
  apply N.succ_inj in Hlb. subst l'. now rewrite Hsum in Hxs.
Qed.

(** X4.  On a strictly increasing table the sum with index [l] serves the
    energies above edge [l] up to and including edge [l + 1], as long as
    they are below the last edge. *)
Theorem xs_bracket_open_below_closed_above :
  forall (e0 : Q) (rest sums : list Q) (l : N) (el eu s E : Q),
    strictly_increasing (e0 :: rest) = true ->
    (size (e0 :: rest) <= 2 ^ 64)%N ->
    at_index (e0 :: rest) l = Some el ->
    at_index (e0 :: rest) (N.succ l) = Some eu ->
    at_index sums l = Some s ->
    el < E -> E <= eu -> E < last rest e0 ->
    STCoherentElastic.xs (STCoherentElastic.mk (e0 :: rest) sums) E
    = Some (s / E).
Proof.
  intros e0 rest sums l el eu s E. apply xs_in_bracket.
Qed.

Lemma xs_bracket_open_below_closed_above_witness :
  STCoherentElastic.xs (STCoherentElastic.mk [1; 2; 3; 4] [10; 20; 30; 40]) 3
  = Some (20 / 3).
Proof.
  apply (xs_bracket_open_below_closed_above
           1 [2; 3; 4] [10; 20; 30; 40] 1 2 3 20 3).
  - reflexivity.
  - intros H. discriminate H.
  - reflexivity.
  - reflexivity.
  - reflexivity.
  - reflexivity.
  - intros H. discriminate H.
  - reflexivity.
Defined.

(** X5.  Within one bracket, with a positive sum and positive energies, the
    cross section does not grow as the energy grows. *)
Theorem xs_non_increasing_within_bracket :
  forall (e0 : Q) (rest sums : list Q) (l : N) (el eu s E1 E2 : Q),
    strictly_increasing (e0 :: rest) = true ->
    (size (e0 :: rest) <= 2 ^ 64)%N ->
    at_index (e0 :: rest) l = Some el ->
    at_index (e0 :: rest) (N.succ l) = Some eu ->
    at_index sums l = Some s ->
    0 < s -> 0 < E1 ->
    el < E1 -> E1 < E2 -> E2 <= eu -> E2 < last rest e0 ->
    exists y1 y2,
      STCoherentElastic.xs (STCoherentElastic.mk (e0 :: rest) sums) E1
      = Some y1 /\
      STCoherentElastic.xs (STCoherentElastic.mk (e0 :: rest) sums) E2
      = Some y2 /\
      y2 <= y1.
Proof.
  intros e0 rest sums l el eu s E1 E2
         Hs Hsize Hel Heu Hsum Hpos HE1 Hlo H12 Hhi Hlast.
  exists (s / E1), (s / E2). split; [| split].
  - apply (xs_in_bracket e0 rest sums l el eu); trivial.
    + apply Qlt_le_weak. now apply Qlt_le_trans with E2.
    + now apply Qlt_trans with E2.
  - apply (xs_in_bracket e0 rest sums l el eu); trivial.
    now apply Qlt_trans with E1.
  - apply Qlt_le_weak. unfold Qdiv. apply Qmult_lt_l; trivial.
    assert (HE2 : 0 < E2) by now apply Qlt_trans with E1.
    now apply (proj1 (Qinv_lt_contravar E1 E2 HE1 HE2)).
Qed.

Lemma xs_non_increasing_within_bracket_witness :
  exists y1 y2,
    STCoherentElastic.xs (STCoherentElastic.mk [1; 2; 3] [10; 20; 30]) 1.25
    = Some y1 /\
    STCoherentElastic.xs (STCoherentElastic.mk [1; 2; 3] [10; 20; 30]) 1.75
    = Some y2 /\
    y2 <= y1.
Proof.
  apply (xs_non_increasing_within_bracket
           1 [2; 3] [10; 20; 30] 0 1 2 10 1.25 1.75).
  - reflexivity.
  - intros H. discriminate H.
  - reflexivity.
  - reflexivity.
  - reflexivity.
  - reflexivity.
  - reflexivity.
  - reflexivity.
  - reflexivity.
  - intros H. discriminate H.
  - reflexivity.
Defined.

(** X6.  With sums that are not negative and a positive energy, whatever
    [xs] returns is not negative. *)
Theorem xs_not_negative :
  forall (c : STCoherentElastic.t) (E y : Q),
    non_negative (STCoherentElastic.structure_factor_sum_ c) = true ->
    0 < E ->
    STCoherentElastic.xs c E = Some y ->
    0 <= y.
Proof.
  intros [edges sums] E y Hnn HE Hxs.
  cbn [STCoherentElastic.structure_factor_sum_] in Hnn.
  assert (Hdiv : forall s, In s sums -> 0 <= s / E).
  { intros s Hin. apply Qle_shift_div_l; trivial.
    rewrite Qmult_0_l. now apply (non_negative_In sums). }
  unfold STCoherentElastic.xs in Hxs.
  cbn [STCoherentElastic.structure_factor_sum_
       STCoherentElastic.bragg_edges_] in Hxs.
  destruct edges as [| e0 rest].
  - injection Hxs as <-. apply Qle_refl.
  - cbv zeta in Hxs.
    destruct (Qgtb E e0 && Qltb E (last rest e0)).
    + destruct (at_index sums _) as [s |] eqn:Hsum; [| discriminate].
      injection Hxs as <-. apply Hdiv. now apply at_index_In in Hsum.
    + destruct (Qltb E e0).
      * injection Hxs as <-. apply Qle_refl.
      * destruct (back sums) as [s |] eqn:Hback; [| discriminate].
        injection Hxs as <-. apply Hdiv. now apply back_In.
Qed.

Lemma xs_not_negative_witness : 0 <= 10 / 1.5.
Proof.
  apply (xs_not_negative (STCoherentElastic.mk [1; 2; 3] [10; 20; 30])
           1.5 (10 / 1.5)).
  - reflexivity.
  - reflexivity.
  - reflexivity.
Defined.

(** * Further properties of the sampled scattering *)

(** X7.  With edges that are not negative and small enough for their
    double to be finite, and a positive incident energy that is not the
    first of several edges, the sampled cosine lies in [-1, 1] and the
    outgoing energy is not negative; the generator is left untouched. *)
Theorem sample_angle_energy_cosine_bounds :
  forall (e0 : Q) (rest sums : list Q) (E_in : Q) (r : Rng.t),
    non_negative (e0 :: rest) = true ->
    doubling_is_finite (e0 :: rest) = true ->
    0 < E_in ->
    ~ E_in == e0 \/ last rest e0 <= E_in ->
    exists p,
      STCoherentElastic.sample_angle_energy
        (STCoherentElastic.mk (e0 :: rest) sums) E_in r = Some (p, r) /\
      -1 <= STCoherentElastic.cosine_angle p /\
      STCoherentElastic.cosine_angle p <= 1 /\
      0 <= STCoherentElastic.energy p.
Proof.
  intros e0 rest sums E_in r Hnn _. now apply sample_angle_energy_range.
Qed.

Lemma sample_angle_energy_cosine_bounds_witness :
  exists p,
    STCoherentElastic.sample_angle_energy
      (STCoherentElastic.mk [1; 2; 3] [10; 20; 30]) 2.5 (Rng.scripted [])
    = Some (p, Rng.scripted []) /\
    -1 <= STCoherentElastic.cosine_angle p /\
    STCoherentElastic.cosine_angle p <= 1 /\
    0 <= STCoherentElastic.energy p.
Proof.
  apply (sample_angle_energy_cosine_bounds
           1 [2; 3] [10; 20; 30] 2.5 (Rng.scripted [])).
  - reflexivity.
  - vm_compute. reflexivity.
  - reflexivity.
  - left. intros H. discriminate H.
Defined.

(** X8.  Strictly between the first and the last edge the sampler scatters
    at the edge whose index is the one [xs] uses for the structure factor
    sum, and that edge lies strictly below the incident energy. *)
Theorem sample_angle_energy_edge_matches_xs :
  forall (e0 : Q) (rest sums : list Q) (E : Q) (r : Rng.t),
    (size (e0 :: rest) <= 2 ^ 64)%N ->
    e0 < E -> E < last rest e0 ->
    exists l Ei,
      at_index (e0 :: rest) l = Some Ei /\
      Ei < E /\
      STCoherentElastic.sample_angle_energy
        (STCoherentElastic.mk (e0 :: rest) sums) E r
      = Some (STCoherentElastic.packet (1 - (2 * Ei / E)) E, r) /\
      STCoherentElastic.xs (STCoherentElastic.mk (e0 :: rest) sums) E
      = match at_index sums l with
        | Some s => Some (s / E)
        | None => None
        end.
Proof.
  intros e0 rest sums E r Hsize Hlo Hhi.
  destruct (xs_between_edges (STCoherentElastic.mk (e0 :: rest) sums)
              e0 rest eq_refl E Hsize Hlo Hhi)
    as (l & el & eu & Hlb & Hel & _ & Hlt & _ & Hxs).
  cbn [STCoherentElastic.structure_factor_sum_
       STCoherentElastic.bragg_edges_] in Hlb, Hel, Hxs.
  exists l, el. repeat split; trivial.
  unfold STCoherentElastic.sample_angle_energy.
  cbn [STCoherentElastic.bragg_edges_]. cbv zeta.
  assert (Hguard : Qgtb E e0 && Qltb E (last rest e0) = true).
  { unfold Qgtb. apply Qltb_true in Hlo, Hhi. now rewrite Hlo, Hhi. }
  rewrite Hguard, Hlb. unfold bind, access, ret, decrement.
  destruct (N.eqb_spec (N.succ l) 0) as [H0 | _]; [lia |].
  rewrite N.pred_succ, Hel. reflexivity.
Qed.

Lemma sample_angle_energy_edge_matches_xs_witness :
  exists l Ei,
    at_index [1; 2; 3] l = Some Ei /\
    Ei < 2.5 /\
    STCoherentElastic.sample_angle_energy
      (STCoherentElastic.mk [1; 2; 3] [10; 20; 30]) 2.5 (Rng.scripted [])
    = Some (STCoherentElastic.packet (1 - (2 * Ei / 2.5)) 2.5,
            Rng.scripted []) /\
    STCoherentElastic.xs (STCoherentElastic.mk [1; 2; 3] [10; 20; 30]) 2.5
    = match at_index [10; 20; 30] l with
      | Some s => Some (s / 2.5)
      | None => None
      end.
Proof.
  apply (sample_angle_energy_edge_matches_xs
           1 [2; 3] [10; 20; 30] 2.5 (Rng.scripted [])).
  - intros H. discriminate H.
  - reflexivity.
  - reflexivity.
Defined.

(** X9.  At an incident energy equal to the positive last edge of a
    strictly increasing table, the double of that edge being finite, the
    neutron is scattered straight back: the cosine is -1 and the energy is
    kept. *)
Theorem sample_angle_energy_backscatter_at_last_edge :
  forall (e0 : Q) (rest sums : list Q) (E_in : Q) (r : Rng.t),
    strictly_increasing (e0 :: rest) = true ->
    0 < last rest e0 ->
    2 * last rest e0 <= DBL_MAX ->
    E_in == last rest e0 ->
    returns_without_drawing
      (STCoherentElastic.sample_angle_energy
         (STCoherentElastic.mk (e0 :: rest) sums) E_in)
      r (-1) E_in.
Proof.
  intros e0 rest sums E_in r Hs Hpos _ HE.
  destruct (sample_angle_energy_edge e0 rest sums E_in r)
    as (Ei & Hrun & Hcase).
  exists (STCoherentElastic.packet (1 - (2 * Ei / E_in)) E_in).
  split; [exact Hrun | split; [| reflexivity]].
  cbn [STCoherentElastic.cosine_angle].
  assert (HEi : Ei = last rest e0).
  { destruct Hcase as [(_ & Hlt & _) | [(Hlt & _) | (_ & _ & H)]]; trivial.
    - rewrite HE in Hlt. exfalso. exact (Qlt_irrefl _ Hlt).
    - exfalso. apply (Qlt_irrefl E_in).
      apply Qlt_le_trans with e0; trivial.
      rewrite HE. now apply first_le_last. }
  subst Ei. rewrite <- HE.
  assert (Hne : ~ E_in == 0).
  { rewrite HE. intros H0. rewrite H0 in Hpos. exact (Qlt_irrefl _ Hpos). }
  field. exact Hne.
Qed.

Lemma sample_angle_energy_backscatter_at_last_edge_witness :
  returns_without_drawing
    (STCoherentElastic.sample_angle_energy
       (STCoherentElastic.mk [1; 2; 3] [10; 20; 30]) 3)
    (Rng.scripted []) (-1) 3.
Proof.
  apply (sample_angle_energy_backscatter_at_last_edge
           1 [2; 3] [10; 20; 30] 3 (Rng.scripted [])).
  - reflexivity.
  - reflexivity.
  - vm_compute. intros H. discriminate H.
  - reflexivity.
Defined.

(** * Further properties of the evaporation record *)

Lemma convert_length {T} (f : Q -> option T) (l : list Q) (l' : list T) :
  ACE.convert f l = Some l' -> length l' = length l.
Proof.
  revert l'. induction l as [| x l IH]; intros l'; simpl.
  - now intros [= <-].
  - destruct (f x) as [y |]; [| discriminate].
    destruct (ACE.convert f l) as [ys |]; [| discriminate].
    intros [= <-]. simpl. f_equal. now apply IH.
Qed.

Lemma xss_range_as_length {T} (f : Q -> option T) (a : ACE.t) (i n : N)
      (l : list T) :
  ACE.xss_range_as f a i n = Some l -> length l = N.to_nat n.
Proof.
  unfold ACE.xss_range_as.
  destruct (ACE.xss_range a i (N.to_nat n)) as [raw |] eqn:Hraw;
    [| discriminate].
  intros H. rewrite (convert_length f raw l H).
  exact (xss_range_length a i (N.to_nat n) raw Hraw).
Qed.

(** X10.  Every constructed object has a temperature table over NE energies
    and NE temperatures, read back to back behind the count NE; with no
    interpolation region given (NR = 0) the table is a single linear-linear
    region. *)
Theorem constructor_grid_and_default_region :
  forall (to_Interpolation : Q -> option Interpolation)
         (ace : ACE.t) (i : N) (g : GeneralEvaporation.t),
    GeneralEvaporation.GeneralEvaporation to_Interpolation ace i = Some g ->
    exists NR NE energy temperature,
      ACE.xss_as to_uint32 ace i = Some NR /\
      ACE.xss_as to_uint32 ace (i .+ 1 .+ 2 .* NR) = Some NE /\
      ACE.xss_range_as Some ace (i .+ 2 .+ 2 .* NR) NE = Some energy /\
      ACE.xss_range_as Some ace (i .+ 2 .+ 2 .* NR .+ NE) NE
        = Some temperature /\
      length energy = N.to_nat NE /\
      length temperature = N.to_nat NE /\
      ((exists interp,
           GeneralEvaporation.temperature_ g
           = Region1D energy temperature interp) \/
       (exists NBT INT,
           GeneralEvaporation.temperature_ g
           = MultiRegion1D NBT INT energy temperature)) /\
      (NR = 0%N ->
       GeneralEvaporation.temperature_ g
       = Region1D energy temperature LinLin).
Proof.
  intros toI ace i g H. unfold GeneralEvaporation.GeneralEvaporation in H.
  destruct (ACE.xss_as to_uint32 ace i) as [NR |] eqn:HNR; [| discriminate].
  destruct (ACE.xss_as to_uint32 ace (i .+ 1 .+ 2 .* NR))
    as [NE |] eqn:HNE; [| discriminate].
  destruct (if (NR =? 0)%N then _ else _) as [tables |] eqn:Htables;
    [| discriminate].
  cbv zeta in H.
  destruct (ACE.xss_range_as Some ace (i .+ 2 .+ 2 .* NR) NE)
    as [energy |] eqn:Henergy; [| discriminate].
  destruct (ACE.xss_range_as Some ace (i .+ 2 .+ 2 .* NR .+ NE) NE)
    as [temperature |] eqn:Htemperature; [| discriminate].
  destruct (ACE.xss_as to_uint32 ace (i .+ 2 .+ 2 .* NR .+ 2 .* NE))
    as [NX |]; [| discriminate].
  destruct (ACE.xss_range_as Some ace (i .+ 2 .+ 2 .* NR .+ 2 .* NE) NX)
    as [bins |]; [| discriminate].
  exists NR, NE, energy, temperature.
  split; [reflexivity |]. split; [exact HNE |].
  split; [exact Henergy |]. split; [exact Htemperature |].
  split; [exact (xss_range_as_length _ _ _ _ _ Henergy) |].
  split; [exact (xss_range_as_length _ _ _ _ _ Htemperature) |].
  split.
  - destruct (size (fst tables) =? 1)%N.
    + destruct (at_index (snd tables) 0) as [INT0 |]; [| discriminate].
      injection H as <-. left. now exists INT0.
    + injection H as <-. right.
      now exists (fst tables), (snd tables).
  - intros ->. cbn [N.eqb] in Htables. injection Htables as <-.
    cbn [fst snd] in H. change (size [NE] =? 1)%N with true in H.
    cbn [at_index N.eqb] in H. now injection H as <-.
Qed.

Lemma constructor_grid_and_default_region_witness :
  exists NE energy temperature,
    ACE.xss_range_as Some evaporation_record 2 NE = Some energy /\
    length energy = N.to_nat NE /\
    length temperature = N.to_nat NE /\
    Region1D [1; 2] [5; 6] LinLin = Region1D energy temperature LinLin.
Proof.
  destruct (constructor_grid_and_default_region
              (fun _ => None) evaporation_record 0
              (GeneralEvaporation.mk (Region1D [1; 2] [5; 6] LinLin)
                                     [3; 0; 1])
              eq_refl)
    as (NR & NE & energy & temperature & HNR & _ & He & _ & Hle & Hlt & _ & H0).
  assert (HNR0 : NR = 0%N) by (vm_compute in HNR; congruence).
  subst NR.
  exists NE, energy, temperature.
  split; [exact He | split; [exact Hle | split; [exact Hlt |]]].
  exact (H0 eq_refl).
Defined.

(** X11.  With interpolation regions given (NR > 0) the NR breakpoints are
    read right behind NR and the NR interpolation rules behind them; a
    single region yields a Region1D with the rule read, several regions a
    MultiRegion1D with the breakpoints and rules read. *)
Theorem constructor_regions_from_record :
  forall (to_Interpolation : Q -> option Interpolation)
         (ace : ACE.t) (i : N) (g : GeneralEvaporation.t) (NR : N),
    GeneralEvaporation.GeneralEvaporation to_Interpolation ace i = Some g ->
    ACE.xss_as to_uint32 ace i = Some NR ->
    NR <> 0%N ->
    exists NBT INT,
      ACE.xss_range_as to_uint32 ace (i .+ 1) NR = Some NBT /\
      ACE.xss_range_as to_Interpolation ace (i .+ 1 .+ NR) NR = Some INT /\
      length NBT = N.to_nat NR /\
      length INT = N.to_nat NR /\
      ((NR = 1%N /\
        exists INT0 x y,
          INT = [INT0] /\
          GeneralEvaporation.temperature_ g = Region1D x y INT0) \/
       (NR <> 1%N /\
        exists x y,
          GeneralEvaporation.temperature_ g = MultiRegion1D NBT INT x y)).
Proof.
  intros toI ace i g NR H HNR Hpos.
  unfold GeneralEvaporation.GeneralEvaporation in H. rewrite HNR in H.
  destruct (ACE.xss_as to_uint32 ace (i .+ 1 .+ 2 .* NR))
    as [NE |]; [| discriminate].
  destruct (N.eqb_spec NR 0) as [H0 | _]; [contradiction |].
  destruct (ACE.xss_range_as to_uint32 ace (i .+ 1) NR)
    as [NBT |] eqn:HNBT; [| discriminate].
  destruct (ACE.xss_range_as toI ace (i .+ 1 .+ NR) NR)
    as [INT |] eqn:HINT; [| discriminate].
  cbn [fst snd] in H. cbv zeta in H.
  destruct (ACE.xss_range_as Some ace (i .+ 2 .+ 2 .* NR) NE)
    as [energy |]; [| discriminate].
  destruct (ACE.xss_range_as Some ace (i .+ 2 .+ 2 .* NR .+ NE) NE)
    as [temperature |]; [| discriminate].
  destruct (ACE.xss_as to_uint32 ace (i .+ 2 .+ 2 .* NR .+ 2 .* NE))
    as [NX |]; [| discriminate].
  destruct (ACE.xss_range_as Some ace (i .+ 2 .+ 2 .* NR .+ 2 .* NE) NX)
    as [bins |]; [| discriminate].
  pose proof (xss_range_as_length _ _ _ _ _ HNBT) as HlenNBT.
  pose proof (xss_range_as_length _ _ _ _ _ HINT) as HlenINT.
  exists NBT, INT. repeat (split; [reflexivity || assumption |]).
  assert (Hsize : size NBT = NR) by (unfold size; lia).
  rewrite Hsize in H.
  destruct (N.eqb_spec NR 1) as [H1 | H1].
  - left. split; trivial. rewrite H1 in HlenINT.
    change (N.to_nat 1) with 1%nat in HlenINT.
    destruct INT as [| INT0 [| INT1 INT]]; try discriminate HlenINT.
    cbn [at_index N.eqb] in H. injection H as <-.
    now exists INT0, energy, temperature.
  - right. split; trivial. injection H as <-.
    now exists energy, temperature.
Qed.

(** A record with two interpolation regions: NR = 2, breakpoints 2, 3,
    rules 2, 3, then NE = 3 energies and temperatures, then three bins. *)
Lemma constructor_regions_from_record_witness :
  exists (NBT : list N) (INT : list Interpolation),
    ACE.xss_range_as to_uint32
      [2; 2; 3; 2; 3; 3; 1; 2; 3; 5; 6; 7; 3; 0; 1; 2] (0 .+ 1) 2
    = Some NBT /\
    length NBT = 2%nat /\
    length INT = 2%nat.
Proof.
  destruct (constructor_regions_from_record
              (fun x => if Qeq_bool x 2 then Some LinLin else Some LinLog)
              [2; 2; 3; 2; 3; 3; 1; 2; 3; 5; 6; 7; 3; 0; 1; 2] 0
              (GeneralEvaporation.mk
                 (MultiRegion1D [2%N; 3%N] [LinLin; LinLog]
                                [1; 2; 3] [5; 6; 7])
                 [3; 0; 1])
              2%N eq_refl eq_refl)
    as (NBT & INT & HNBT & _ & H1 & H2 & _).
  - intros H. discriminate H.
  - exists NBT, INT. split; [exact HNBT | split; [exact H1 | exact H2]].
Defined.

(** X12.  The constructed object holds exactly as many bin bounds as the
    count NX stored behind the temperatures says. *)
Theorem constructor_bin_count :
  forall (to_Interpolation : Q -> option Interpolation)
         (ace : ACE.t) (i : N) (g : GeneralEvaporation.t),
    GeneralEvaporation.GeneralEvaporation to_Interpolation ace i = Some g ->
    exists NR NE NX,
      ACE.xss_as to_uint32 ace i = Some NR /\
      ACE.xss_as to_uint32 ace (i .+ 1 .+ 2 .* NR) = Some NE /\
      ACE.xss_as to_uint32 ace (i .+ 2 .+ 2 .* NR .+ 2 .* NE) = Some NX /\
      size (GeneralEvaporation.bin_bounds_ g) = NX.
Proof.
  intros toI ace i g H.
  destruct (constructor_layout toI ace i g H)
    as (NR & NE & NX & H1 & H2 & H3 & H4).
  exists NR, NE, NX. repeat (split; [assumption |]).
  unfold size. rewrite (xss_range_as_length _ _ _ _ _ H4). lia.
Qed.

Lemma constructor_bin_count_witness :
  exists NX,
    ACE.xss_as to_uint32 evaporation_record 6 = Some NX /\
    size [3; 0; 1] = NX.
Proof.
  destruct (constructor_bin_count
              (fun _ => None) evaporation_record 0
              (GeneralEvaporation.mk (Region1D [1; 2] [5; 6] LinLin)
                                     [3; 0; 1])
              eq_refl)
    as (NR & NE & NX & HNR & HNE & HNX & Hsize).
  assert (HNR0 : NR = 0%N) by (vm_compute in HNR; congruence).
  subst NR.
  assert (HNE2 : NE = 2%N) by (vm_compute in HNE; congruence).
  subst NE.
  exists NX. split; [exact HNX | exact Hsize].
Defined.

(** * Further properties of the sampled energy *)

(** X13.  For a first variate in [0, 1): when [size * xi1], enlarged by the
    rounding margin, is below [size - 1], the call stays within the bin
    bounds and returns after two draws; when [size * xi1] is at least
    [size - 1], the read of the upper bound is out of range. *)
Theorem sample_energy_range_of_first_variate :
  forall (evaluate : Tabulated1D -> Q -> Q) (g : GeneralEvaporation.t)
         (E_in : Q) (r : Rng.t),
    (1 <= size (GeneralEvaporation.bin_bounds_ g) < 2 ^ 53)%N ->
    0 <= Rng.peek 0 r ->
    Rng.peek 0 r < 1 ->
    (inject_Z (Z.of_N (size (GeneralEvaporation.bin_bounds_ g)))
     * Rng.peek 0 r * (1 + rounding_margin)
     < inject_Z (Z.of_N (size (GeneralEvaporation.bin_bounds_ g))) - 1 ->
     exists E_out,
       GeneralEvaporation.sample_energy evaluate g E_in r
       = Some (E_out, Rng.advance 2 r)) /\
    (inject_Z (Z.of_N (size (GeneralEvaporation.bin_bounds_ g))) - 1
     <= inject_Z (Z.of_N (size (GeneralEvaporation.bin_bounds_ g)))
        * Rng.peek 0 r ->
     GeneralEvaporation.sample_energy evaluate g E_in r = None).
Proof.
  intros evaluate g E_in r Hn Hlo Hhi.
  assert (H253 : (2 ^ 53 < 2 ^ 64)%N) by reflexivity.
  split.
  - intros Hlt. apply sample_energy_completes; trivial; [lia |].
    assert (Hx : 0 <= inject_Z (Z.of_N (size (GeneralEvaporation.bin_bounds_ g)))
                      * Rng.peek 0 r).
    { apply Qmult_le_0_compat; trivial.
      change 0 with (inject_Z 0). rewrite <- Zle_Qle. lia. }
    unfold rounding_margin in Hlt.
    remember (inject_Z (Z.of_N (size (GeneralEvaporation.bin_bounds_ g)))
              * Rng.peek 0 r) as x eqn:Hxdef. clear Hxdef.
    lra.
  - intros Hge.
    assert (Hn64 : (1 <= size (GeneralEvaporation.bin_bounds_ g) < 2 ^ 64)%N)
      by lia.
    destruct (sample_energy_last_bin evaluate g E_in r Hn64 Hge Hhi)
      as (_ & _ & Hnone).
    exact Hnone.
Qed.

Lemma sample_energy_range_of_first_variate_witness :
  (inject_Z 3 * 0.5 * (1 + rounding_margin) < inject_Z 3 - 1 ->
   exists E_out,
     GeneralEvaporation.sample_energy (fun _ _ => 2) three_bounds 7
       (Rng.scripted [0.5; 0.5])
     = Some (E_out, Rng.advance 2 (Rng.scripted [0.5; 0.5]))) /\
  (inject_Z 3 - 1 <= inject_Z 3 * 0.5 ->
   GeneralEvaporation.sample_energy (fun _ _ => 2) three_bounds 7
     (Rng.scripted [0.5; 0.5]) = None).
Proof.
  apply (sample_energy_range_of_first_variate (fun _ _ => 2) three_bounds 7
           (Rng.scripted [0.5; 0.5])).
  - split; [intros H; discriminate H | reflexivity].
  - intros H. discriminate H.
  - reflexivity.
Defined.

(** X14.  With strictly increasing bin bounds none of which is negative
    (and small enough for their double to be finite), a second variate in
    [0, 1] and a temperature that is not negative, a completed call returns
    an energy that is not negative. *)
Theorem sample_energy_not_negative :
  forall (evaluate : Tabulated1D -> Q -> Q) (g : GeneralEvaporation.t)
         (E_in : Q) (r : Rng.t) (E_out : Q) (r' : Rng.t),
    strictly_increasing (GeneralEvaporation.bin_bounds_ g) = true ->
    non_negative (GeneralEvaporation.bin_bounds_ g) = true ->
    doubling_is_finite (GeneralEvaporation.bin_bounds_ g) = true ->
    (size (GeneralEvaporation.bin_bounds_ g) < 2 ^ 64)%N ->
    0 <= Rng.peek 1 r -> Rng.peek 1 r <= 1 ->
    0 <= evaluate (GeneralEvaporation.temperature_ g) E_in ->
    GeneralEvaporation.sample_energy evaluate g E_in r = Some (E_out, r') ->
    0 <= E_out.
Proof.
  intros evaluate g E_in r E_out r' Hs Hnn _ Hsize H0 _ HT Hrun.
  rewrite sample_energy_chi in Hrun. unfold chi in Hrun.
  destruct (GeneralEvaporation.select_bin
              (GeneralEvaporation.bin_bounds_ g) (Rng.peek 0 r))
    as [bin |] eqn:Hbin; [| discriminate].
  destruct (at_index (GeneralEvaporation.bin_bounds_ g) (bin .+ 1))
    as [upper |] eqn:Hupper; [| discriminate].
  destruct (at_index (GeneralEvaporation.bin_bounds_ g) bin)
    as [lower |] eqn:Hlower; [| discriminate].
  injection Hrun as <- _.
  assert (Hsucc : (bin .+ 1) = N.succ bin).
  { apply at_index_Some_in_range in Hlower.
    unfold size_add, wrap64.
    assert (H264 : Z.of_N (2 ^ 64) = (2 ^ 64)%Z) by reflexivity.
    rewrite Z.mod_small by lia. lia. }
  rewrite Hsucc in Hupper.
  pose proof (strictly_increasing_adjacent _ _ _ _ Hs Hlower Hupper) as Hlu.
  assert (Hl : 0 <= lower).
  { apply (non_negative_In (GeneralEvaporation.bin_bounds_ g)); trivial.
    now apply at_index_In in Hlower. }
  assert (Hd : 0 <= (upper - lower) * Rng.peek 1 r).
  { apply Qmult_le_0_compat; trivial. lra. }
  apply Qmult_le_0_compat; trivial. lra.
Qed.

Lemma sample_energy_not_negative_witness :
  0 <= ((5 - 4) * 0.5 + 4) * 2.
Proof.
  apply (sample_energy_not_negative (fun _ _ => 2)
           (GeneralEvaporation.mk (Region1D [1; 2] [5; 6] LinLin) [3; 4; 5])
           7
           (Rng.scripted [0.5; 0.5]) (((5 - 4) * 0.5 + 4) * 2)
           (Rng.advance 2 (Rng.scripted [0.5; 0.5]))).
  - reflexivity.
  - reflexivity.
  - vm_compute. reflexivity.
  - reflexivity.
  - intros H. discriminate H.
  - intros H. discriminate H.
  - intros H. discriminate H.
  - reflexivity.
Defined.

(** X15.  For a first variate in [0, 1) and at least one bin bound, the
    selected bin is an index of the vector: the read of the lower bound is
    always in range. *)
Theorem select_bin_is_an_index :
  forall (bin_bounds : list Q) (xi1 : Q),
    (1 <= size bin_bounds < 2 ^ 64)%N ->
    0 <= xi1 -> xi1 < 1 ->
    exists bin lower,
      GeneralEvaporation.select_bin bin_bounds xi1 = Some bin /\
      (bin < size bin_bounds)%N /\
      at_index bin_bounds bin = Some lower.
Proof.
  intros bin_bounds xi1 Hn Hlo Hhi.
  set (n := size bin_bounds) in *.
  set (x := inject_Z (Z.of_N n) * xi1).
  assert (H264 : Z.of_N (2 ^ 64) = (2 ^ 64)%Z) by reflexivity.
  assert (Hn0 : 0 < inject_Z (Z.of_N n)).
  { change 0 with (inject_Z 0). rewrite <- Zlt_Qlt. lia. }
  assert (Hx0 : 0 <= x).
  { apply Qmult_le_0_compat; trivial. now apply Qlt_le_weak. }
  assert (Hx1 : x < inject_Z (Z.of_N n)).
  { assert (H : x < inject_Z (Z.of_N n) * 1);
      [apply Qmult_lt_l; trivial | lra]. }
  assert (Hf0 : (0 <= Qfloor x)%Z).
  { change 0%Z with (Qfloor (inject_Z 0)). now apply Qfloor_resp_le. }
  assert (Hf1 : (Qfloor x < Z.of_N n)%Z).
  { rewrite Zlt_Qlt. apply Qle_lt_trans with x; [apply Qfloor_le | exact Hx1]. }
  destruct (at_index_in_range bin_bounds (Z.to_N (Qfloor x))) as [lower Hl].
  { fold n. lia. }
  exists (Z.to_N (Qfloor x)), lower. repeat split; trivial; [| fold n; lia].
  unfold GeneralEvaporation.select_bin, to_size_t. fold n. fold x.
  destruct (Z.leb_spec 0 (Qfloor x)); [| lia].
  destruct (Z.ltb_spec (Qfloor x) (2 ^ 64)); [| lia].
  reflexivity.
Qed.

Lemma select_bin_is_an_index_witness :
  exists bin lower,
    GeneralEvaporation.select_bin [0; 1; 2] 0.9 = Some bin /\
    (bin < size [0; 1; 2])%N /\
    at_index [0; 1; 2] bin = Some lower.
Proof.
  apply (select_bin_is_an_index [0; 1; 2] 0.9).
  - split; [intros H; discriminate H | reflexivity].
  - intros H. discriminate H.
  - reflexivity.
Defined.

(** X16.  A table with fewer than two bin bounds cannot be sampled: for
    every first variate in [0, 1) the read of the upper bound is out of
    range. *)
Theorem sample_energy_needs_two_bounds :
  forall (evaluate : Tabulated1D -> Q -> Q) (g : GeneralEvaporation.t)
         (E_in : Q) (r : Rng.t),
    (length (GeneralEvaporation.bin_bounds_ g) <= 1)%nat ->
    0 <= Rng.peek 0 r ->
    Rng.peek 0 r < 1 ->
    GeneralEvaporation.sample_energy evaluate g E_in r = None.
Proof.
  intros evaluate g E_in r Hlen Hlo Hhi.
  destruct (GeneralEvaporation.bin_bounds_ g) as [| b [| b' bs]] eqn:Hbb.
  - rewrite sample_energy_chi, Hbb. unfold chi.
    destruct (GeneralEvaporation.select_bin [] (Rng.peek 0 r)); reflexivity.
  - apply (sample_energy_last_bin evaluate g E_in r); rewrite ?Hbb; trivial.
    + split; [intros H; discriminate H | reflexivity].
    + change (inject_Z (Z.of_N (size [b]))) with 1. lra.
  - simpl in Hlen. lia.
Qed.

Lemma sample_energy_needs_two_bounds_witness :
  GeneralEvaporation.sample_energy (fun _ _ => 2)
    (GeneralEvaporation.mk (Region1D [1; 2] [5; 6] LinLin) [4])
    7 (Rng.scripted [0.5; 0.5])
  = None.
Proof.
  apply (sample_energy_needs_two_bounds (fun _ _ => 2)
           (GeneralEvaporation.mk (Region1D [1; 2] [5; 6] LinLin) [4])
           7 (Rng.scripted [0.5; 0.5])).
  - apply le_n.
  - intros H. discriminate H.
  - reflexivity.
Defined.
